(** * The binlog reader of gh-ost: go/binlog/gomysql_reader.go

    A shallow embedding of [GoMySQLReader] and of its methods
    [isAuthenticationError], [handleAuthError], [ConnectBinlogStreamer]
    and [handleRowsEvent], with the properties the design document states
    about them.

    Conventions.
    - Go's [int] and [int64] are integers of 64 bits, written as [Z] with
      the wrap-around of the arithmetic spelled out ([GoInt.wrap]).
    - A Go [string] is a sequence of bytes: [String.string].  Where the
      library reads a string as text, as [strings.ToLower] does, the bytes
      are decoded as UTF-8; a rune is a [Z].
    - A value of the interface [error] is [option error]; [None] is [nil].
    - A method with a pointer receiver takes the reader and returns the
      reader it leaves behind.
    - What a call sends on [entriesChannel] is the list of the entries, in
      the order of the sends; every send is taken to be received.
    - Calls to the logger leave no trace in the reader and are not modelled
      (but for the error value that [Log.Errorf] returns). *)

From Stdlib Require Import ZArith List String Ascii Bool Lia DecimalString Sorted.
Import ListNotations.

Local Open Scope string_scope.
Local Open Scope Z_scope.

(** ** Go's machine integers *)

Module GoInt.

Definition max_int : Z := 2 ^ 63 - 1.
Definition min_int : Z := - 2 ^ 63.

(** The value an [int] holds after an arithmetic operation whose
    mathematical result is [z]. *)
Definition wrap (z : Z) : Z := (z + 2 ^ 63) mod 2 ^ 64 - 2 ^ 63.

Definition in_range (z : Z) : Prop := min_int <= z <= max_int.

(** The conversion [uint32(z)] of an [int64]. *)
Definition uint32 (z : Z) : Z := z mod 2 ^ 32.

End GoInt.

(** ** The bytes of a Go string *)

(** A byte of a string as a number, and the byte of a number below 256. *)
Definition byte_val (c : ascii) : Z := Z.of_N (N_of_ascii c).

Definition chr (b : Z) : ascii := ascii_of_N (Z.to_N b).

(** [byte(x)], the conversion to [uint8]. *)
Definition byte (x : Z) : Z := Z.land x 255.

(** [s[i]], [s[n:]] and [len(s)]. *)
Definition byte_at (s : string) (i : nat) : Z :=
  match String.get i s with
  | Some c => byte_val c
  | None => 0
  end.

Fixpoint drop (n : nat) (s : string) : string :=
  match n, s with
  | O, _ => s
  | S n', String _ s' => drop n' s'
  | S _, EmptyString => EmptyString
  end.

Definition len (s : string) : Z := Z.of_nat (String.length s).

(** ** The parts of Go's library the reader calls *)

Module utf8.

Definition RuneError : Z := 0xFFFD.
Definition RuneSelf : Z := 0x80.
Definition MaxRune : Z := 0x10FFFF.

Definition surrogateMin : Z := 0xD800.
Definition surrogateMax : Z := 0xDFFF.

Definition tx : Z := 0x80.
Definition t2 : Z := 0xC0.
Definition t3 : Z := 0xE0.
Definition t4 : Z := 0xF0.

Definition maskx : Z := 0x3F.
Definition mask2 : Z := 0x1F.
Definition mask3 : Z := 0x0F.
Definition mask4 : Z := 0x07.

Definition rune1Max : Z := 0x7F.
Definition rune2Max : Z := 0x7FF.
Definition rune3Max : Z := 0xFFFF.

(** The default lowest and highest continuation byte. *)
Definition locb : Z := 0x80.
Definition hicb : Z := 0xBF.

(** The entries of [first]: the first nibble is an index into
    [acceptRanges], or F for the two cases of one byte; the second is the
    length of the rune. *)
Definition xx : Z := 0xF1.
Definition as_ : Z := 0xF0.
Definition s1 : Z := 0x02.
Definition s2 : Z := 0x13.
Definition s3 : Z := 0x03.
Definition s4 : Z := 0x23.
Definition s5 : Z := 0x34.
Definition s6 : Z := 0x04.
Definition s7 : Z := 0x44.

(** [first], the information about the first byte of a sequence; the 256
    entries of the table, by their ranges. *)
Definition first (b : Z) : Z :=
  if b <? 0x80 then as_
  else if b <? 0xC2 then xx
  else if b <? 0xE0 then s1
  else if b =? 0xE0 then s2
  else if b <? 0xED then s3
  else if b =? 0xED then s4
  else if b <? 0xF0 then s3
  else if b =? 0xF0 then s5
  else if b <? 0xF4 then s6
  else if b =? 0xF4 then s7
  else xx.

Record acceptRange : Type := mkAcceptRange { lo : Z; hi : Z }.

Definition acceptRanges (i : Z) : acceptRange :=
  match i with
  | 0 => mkAcceptRange locb hicb
  | 1 => mkAcceptRange 0xA0 hicb
  | 2 => mkAcceptRange locb 0x9F
  | 3 => mkAcceptRange 0x90 hicb
  | 4 => mkAcceptRange locb 0x8F
  | _ => mkAcceptRange 0 0
  end.

(** [utf8.DecodeRuneInString]: the first rune of [s] and its width in
    bytes; [(RuneError, 1)] where the bytes are no encoding of a rune.
    The loop [for _, c := range s] decodes in the same way. *)
Definition DecodeRuneInString (s : string) : Z * nat :=
  let n := len s in
  if n <? 1 then (RuneError, 0%nat) else
  let s0 := byte_at s 0 in
  let x := first s0 in
  if as_ <=? x then
    ((if x =? xx then RuneError else s0), 1%nat)
  else
  let sz := Z.land x 7 in
  let accept := acceptRanges (Z.shiftr x 4) in
  if n <? sz then (RuneError, 1%nat) else
  let s1 := byte_at s 1 in
  if (s1 <? lo accept) || (hi accept <? s1) then (RuneError, 1%nat) else
  if sz <=? 2 then
    (Z.lor (Z.shiftl (Z.land s0 mask2) 6) (Z.land s1 maskx), 2%nat)
  else
  let s2 := byte_at s 2 in
  if (s2 <? locb) || (hicb <? s2) then (RuneError, 1%nat) else
  if sz <=? 3 then
    (Z.lor (Z.lor (Z.shiftl (Z.land s0 mask3) 12) (Z.shiftl (Z.land s1 maskx) 6))
       (Z.land s2 maskx), 3%nat)
  else
  let s3 := byte_at s 3 in
  if (s3 <? locb) || (hicb <? s3) then (RuneError, 1%nat) else
  (Z.lor (Z.lor (Z.lor (Z.shiftl (Z.land s0 mask4) 18) (Z.shiftl (Z.land s1 maskx) 12))
            (Z.shiftl (Z.land s2 maskx) 6))
     (Z.land s3 maskx), 4%nat).

Definition bytes (l : list Z) : string :=
  string_of_list_ascii (map chr l).

Definition appendRuneNonASCII (r : Z) : string :=
  let i := r mod 2 ^ 32 in
  if i <=? rune2Max then
    bytes [Z.lor t2 (byte (Z.shiftr r 6)); Z.lor tx (Z.land (byte r) maskx)]
  else if (MaxRune <? i) || ((surrogateMin <=? i) && (i <=? surrogateMax)) then
    let r := RuneError in
    bytes [Z.lor t3 (byte (Z.shiftr r 12));
           Z.lor tx (Z.land (byte (Z.shiftr r 6)) maskx);
           Z.lor tx (Z.land (byte r) maskx)]
  else if i <=? rune3Max then
    bytes [Z.lor t3 (byte (Z.shiftr r 12));
           Z.lor tx (Z.land (byte (Z.shiftr r 6)) maskx);
           Z.lor tx (Z.land (byte r) maskx)]
  else
    bytes [Z.lor t4 (byte (Z.shiftr r 18));
           Z.lor tx (Z.land (byte (Z.shiftr r 12)) maskx);
           Z.lor tx (Z.land (byte (Z.shiftr r 6)) maskx);
           Z.lor tx (Z.land (byte r) maskx)].

(** [utf8.AppendRune] to nothing: the UTF-8 encoding of the rune [r], that
    of [RuneError] where [r] is no rune. *)
Definition AppendRune (r : Z) : string :=
  if r mod 2 ^ 32 <=? rune1Max then bytes [byte r]
  else appendRuneNonASCII r.

End utf8.

Module unicode.

Definition MaxRune : Z := 0x10FFFF.
Definition ReplacementChar : Z := 0xFFFD.
Definition MaxASCII : Z := 0x7F.

Definition UpperCase : Z := 0.
Definition LowerCase : Z := 1.
Definition TitleCase : Z := 2.

(** [d], the deltas of a row for the three cases, and [CaseRange], a row
    of the case table: the runes [Lo] to [Hi], and what is added to one of
    them to have it in each case. *)
Record d : Type := mk_d { to_upper : Z; to_lower : Z; to_title : Z }.

Record CaseRange : Type := mkCaseRange { Lo : Z; Hi : Z; Delta : d }.

Definition Delta_at (cr : CaseRange) (_case : Z) : Z :=
  if _case =? UpperCase then to_upper (Delta cr)
  else if _case =? LowerCase then to_lower (Delta cr)
  else to_title (Delta cr).

(** The delta of a row in which upper and lower case alternate. *)
Definition UpperLower : Z := MaxRune + 1.

(** The binary search of [to] between the rows [lo] and [hi].  A turn
    halves what is left, so that as many turns as the table has rows, and
    one more, end it. *)
Fixpoint to_search (turns : nat) (_case r : Z) (caseRange : list CaseRange)
    (lo hi : nat) : Z :=
  match turns with
  | O => r
  | S turns' =>
      if (lo <? hi)%nat then
        let m := Nat.div2 (lo + hi) in
        match nth_error caseRange m with
        | None => r
        | Some cr =>
            if (Lo cr <=? r) && (r <=? Hi cr) then
              let delta := Delta_at cr _case in
              if MaxRune <? delta then
                Lo cr + Z.lor (Z.ldiff (r - Lo cr) 1) (Z.land _case 1)
              else r + delta
            else if r <? Lo cr then to_search turns' _case r caseRange lo m
            else to_search turns' _case r caseRange (S m) hi
        end
      else r
  end.

(** [to]: the rune [r] in the case [_case], by the table [caseRange]; [r]
    itself where no row holds it. *)
Definition to (_case r : Z) (caseRange : list CaseRange) : Z :=
  to_search (S (List.length caseRange)) _case r caseRange 0 (List.length caseRange).

(** [unicode.CaseRanges], the table of the case mappings.  Its rows are
    data of the Go release the program is built with, so the table is a
    parameter here.  One fact about it is used: U+FFFD, the rune that
    stands for a byte that is no UTF-8, has no lower case but itself. *)
Class CaseRanges : Type := {
  rows : list CaseRange;
  ReplacementChar_LowerCase : to LowerCase ReplacementChar rows = ReplacementChar
}.

Definition To {case_ranges : CaseRanges} (_case r : Z) : Z :=
  to _case r rows.

(** [unicode.ToLower]: the letters A to Z by arithmetic, a rune above
    ASCII by the table. *)
Definition ToLower {case_ranges : CaseRanges} (r : Z) : Z :=
  if r <=? MaxASCII then
    if (65 <=? r) && (r <=? 90) then r + (97 - 65) else r
  else To LowerCase r.

End unicode.

Module strings.

(** The loop of [strings.Map] over the runes of [s]: every rune is
    decoded, mapped and encoded again, and a rune mapped below 0 is
    dropped.  The width of a rune is at least 1, so that as many turns as
    [s] has bytes end the loop.  (Go copies the bytes before the first
    rune that the mapping changes as they are; the encoding of a rune that
    was decoded from bytes of its own is these bytes.) *)
Fixpoint map_runes (mapping : Z -> Z) (turns : nat) (s : string) : string :=
  match turns with
  | O => ""
  | S turns' =>
      match s with
      | "" => ""
      | _ =>
          let (c, width) := utf8.DecodeRuneInString s in
          let r := mapping c in
          (if 0 <=? r then utf8.AppendRune r else "") ++
          map_runes mapping turns' (drop width s)
      end
  end.

Definition Map (mapping : Z -> Z) (s : string) : string :=
  map_runes mapping (String.length s) s.

(** The first loop of [strings.ToLower]: are all bytes ASCII, and is an
    upper case letter among them. *)
Fixpoint isASCII (s : string) : bool :=
  match s with
  | "" => true
  | String c s' => (byte_val c <? utf8.RuneSelf) && isASCII s'
  end.

Fixpoint hasUpper (s : string) : bool :=
  match s with
  | "" => false
  | String c s' => ((65 <=? byte_val c) && (byte_val c <=? 90)) || hasUpper s'
  end.

(** Its loop over the bytes of an ASCII string: [c += 'a' - 'A'] at the
    letters A to Z. *)
Fixpoint lowerASCII (s : string) : string :=
  match s with
  | "" => ""
  | String c s' =>
      String (if (65 <=? byte_val c) && (byte_val c <=? 90)
              then chr (byte_val c + (97 - 65)) else c)
        (lowerASCII s')
  end.

(** [strings.ToLower]: an ASCII string byte by byte, any other string rune
    by rune, as [Map(unicode.ToLower, s)]. *)
Definition ToLower {case_ranges : unicode.CaseRanges} (s : string) : string :=
  if isASCII s then
    if negb (hasUpper s) then s else lowerASCII s
  else Map unicode.ToLower s.

(** [strings.Contains]: [substr] starts at some position of [s]. *)
Fixpoint Contains (s substr : string) : bool :=
  String.prefix substr s ||
  match s with
  | EmptyString => false
  | String _ s' => Contains s' substr
  end.

End strings.

(** *** Notions for the lemmas about [strings.ToLower] *)

(** The first [n] bytes of a string, [s[:n]]. *)
Fixpoint take (n : nat) (s : string) : string :=
  match n, s with
  | O, _ => ""
  | S n', String c s' => String c (take n' s')
  | S _, "" => ""
  end.

(** A continuation byte of UTF-8. *)
Definition continuation (b : Z) : Prop := 0x80 <= b <= 0xBF.

(** Every byte of the string is above the ASCII ones. *)
Fixpoint all_high (s : string) : bool :=
  match s with
  | "" => true
  | String c s' => (utf8.RuneSelf <=? byte_val c) && all_high s'
  end.

(** What [strings.Map] writes for a rune that is mapped to [r]. *)
Definition written (r : Z) : string :=
  if 0 <=? r then utf8.AppendRune r else "".

(** [utf8.DecodeRuneInString] as a function of the length of the string
    and of its first four bytes. *)
Definition decode (n s0 s1 s2 s3 : Z) : Z * nat :=
  if n <? 1 then (utf8.RuneError, 0%nat) else
  let x := utf8.first s0 in
  if utf8.as_ <=? x then
    ((if x =? utf8.xx then utf8.RuneError else s0), 1%nat)
  else
  let sz := Z.land x 7 in
  let accept := utf8.acceptRanges (Z.shiftr x 4) in
  if n <? sz then (utf8.RuneError, 1%nat) else
  if (s1 <? utf8.lo accept) || (utf8.hi accept <? s1) then (utf8.RuneError, 1%nat) else
  if sz <=? 2 then
    (Z.lor (Z.shiftl (Z.land s0 utf8.mask2) 6) (Z.land s1 utf8.maskx), 2%nat)
  else
  if (s2 <? utf8.locb) || (utf8.hicb <? s2) then (utf8.RuneError, 1%nat) else
  if sz <=? 3 then
    (Z.lor (Z.lor (Z.shiftl (Z.land s0 utf8.mask3) 12) (Z.shiftl (Z.land s1 utf8.maskx) 6))
       (Z.land s2 utf8.maskx), 3%nat)
  else
  if (s3 <? utf8.locb) || (utf8.hicb <? s3) then (utf8.RuneError, 1%nat) else
  (Z.lor (Z.lor (Z.lor (Z.shiftl (Z.land s0 utf8.mask4) 18) (Z.shiftl (Z.land s1 utf8.maskx) 12))
            (Z.shiftl (Z.land s2 utf8.maskx) 6))
     (Z.land s3 utf8.maskx), 4%nat).

(** The entry of [first] at a byte, and where the byte lies. *)
Inductive lead : Z -> Z -> Prop :=
| lead_as (b : Z) : b < 0x80 -> lead b utf8.as_
| lead_xx (b : Z) : 0x80 <= b < 0xC2 \/ 0xF5 <= b -> lead b utf8.xx
| lead_s1 (b : Z) : 0xC2 <= b -> lead b utf8.s1
| lead_s2 (b : Z) : 0xC2 <= b -> lead b utf8.s2
| lead_s3 (b : Z) : 0xC2 <= b -> lead b utf8.s3
| lead_s4 (b : Z) : 0xC2 <= b -> lead b utf8.s4
| lead_s5 (b : Z) : 0xC2 <= b -> lead b utf8.s5
| lead_s6 (b : Z) : 0xC2 <= b -> lead b utf8.s6
| lead_s7 (b : Z) : 0xC2 <= b -> lead b utf8.s7.

Module fmt.

(** The verb [%d] at an integer. *)
Definition d (z : Z) : string := NilZero.string_of_int (Z.to_int z).

End fmt.

(** ** Errors *)

(** [gomysql.MyError], the error of the MySQL protocol. *)
Record MyError : Type := mkMyError {
  Code : Z;
  Message : string;
  State : string
}.

(** The error values that reach the reader: [errors.New] and [fmt.Errorf]
    without [%w] give an [errorString], the protocol client gives a
    [*MyError], and [fmt.Errorf] with one [%w] (as [errors.Wrap] and its
    like) gives a wrapper that holds its own message and the error it
    wraps. *)
Inductive error : Type :=
| errorString (s : string)
| ofMyError (e : MyError)
| wrapError (msg : string) (err : error).

Module errors.

(** The method [Error()]. *)
Definition Error (e : error) : string :=
  match e with
  | errorString s => s
  | ofMyError e =>
      "ERROR " ++ fmt.d (Code e) ++ " (" ++ State e ++ "): " ++ Message e
  | wrapError msg _ => msg
  end.

(** The method [Unwrap()], where the value has one. *)
Definition Unwrap (e : error) : option error :=
  match e with
  | wrapError _ err => Some err
  | _ => None
  end.

(** [errors.As(err, &myErr)] with [myErr] a [*MyError]: the first error of
    the chain of [Unwrap] that is a [*MyError]. *)
Fixpoint As (e : error) : option MyError :=
  match e with
  | ofMyError m => Some m
  | wrapError _ err => As err
  | errorString _ => None
  end.

(** [fmt.Errorf(prefix ++ "%w", err)]. *)
Definition Errorf_w (prefix : string) (err : error) : error :=
  wrapError (prefix ++ Error err) err.

End errors.

(** [e] is [target], or wraps it at some depth. *)
Inductive wraps : error -> error -> Prop :=
| wraps_here : forall e, wraps e e
| wraps_below : forall msg e target, wraps e target -> wraps (wrapError msg e) target.

(** ** Package mysql: the coordinates of the binary log *)

Module mysql.

Record BinlogCoordinates : Type := mkBinlogCoordinates {
  LogFile : string;
  LogPos : Z;
  EventSize : Z
}.

(** Modelled from the spec: go/mysql/binlog.go, not among the sources at
    hand.  "fails if the coordinate is empty/unset": a coordinate with no
    log file. *)
Definition IsEmpty (this : BinlogCoordinates) : bool :=
  (LogFile this =? "")%string.

(** Modelled from the spec: go/mysql/binlog.go.  "Two coordinates are
    compared first by logFile (rotation boundary), then by logPosition." *)
Definition SmallerThan (this other : BinlogCoordinates) : bool :=
  if (LogFile this <? LogFile other)%string then true
  else if (LogFile this =? LogFile other)%string && (LogPos this <? LogPos other)
  then true
  else false.

(** Modelled from the spec: go/mysql/binlog.go.  "Equality requires both
    fields equal." *)
Definition SmallerThanOrEquals (this other : BinlogCoordinates) : bool :=
  if SmallerThan this other then true
  else (LogFile this =? LogFile other)%string && (LogPos this =? LogPos other).

(** Modelled from the spec: go/mysql/binlog.go.  The position of an event
    is a field of 4 bytes; "the position counter wrapped past a 4-byte
    range without an observed rotation": the coordinate applied last is
    set, lies in the same log file, and its position plus the size of the
    current event does not fit 4 bytes. *)
Definition IsLogPosOverflowBeyond4Bytes
    (this preCoordinate : BinlogCoordinates) : bool :=
  if IsEmpty preCoordinate then false
  else if negb (LogFile this =? LogFile preCoordinate)%string then false
  else if 2 ^ 32 <=? GoInt.wrap (LogPos preCoordinate + EventSize this) then true
  else false.

End mysql.

Import mysql.

(** ** Package binlog: entries and the reader *)

(** [EventDML]: the kinds of row change, and [NotDML] for the rest. *)
Inductive EventDML : Type := NotDML | InsertDML | UpdateDML | DeleteDML.

Definition EventDML_eqb (a b : EventDML) : bool :=
  match a, b with
  | NotDML, NotDML | InsertDML, InsertDML
  | UpdateDML, UpdateDML | DeleteDML, DeleteDML => true
  | _, _ => false
  end.

(** A run-time panic of Go: an index outside a slice. *)
Inductive panic : Type :=
| index_out_of_range (index len : nat).

(** How a call ends: it returns its [error] result, or it panics. *)
Inductive completion : Type :=
| Return (err : option error)
| Panic (p : panic).

(** [gomysql.Position], where a sync starts. *)
Record Position : Type := mkPosition {
  Name : string;
  Pos : Z
}.

Record MigrationContext : Type := mkMigrationContext {
  MaxAuthFailures : Z
}.

(** MySQL error codes for authentication failures *)
Definition ER_DBACCESS_DENIED_ERROR : Z := 1044.
Definition ER_ACCESS_DENIED_ERROR : Z := 1045.
Definition ER_HOST_NOT_ALLOWED : Z := 1130.
Definition ER_ACCESS_DENIED_NO_PASSWORD : Z := 1698.
Definition ER_ACCOUNT_HAS_BEEN_LOCKED : Z := 3118.

(** The [switch myErr.Code] of [isAuthenticationError]. *)
Definition auth_code (code : Z) : bool :=
  (code =? ER_ACCESS_DENIED_ERROR) ||
  (code =? ER_DBACCESS_DENIED_ERROR) ||
  (code =? ER_HOST_NOT_ALLOWED) ||
  (code =? ER_ACCESS_DENIED_NO_PASSWORD) ||
  (code =? ER_ACCOUNT_HAS_BEEN_LOCKED).

(** isAuthenticationError checks if the error is an authentication failure *)
Definition isAuthenticationError {case_ranges : unicode.CaseRanges}
    (err : option error) : bool :=
  match err with
  | None => false
  | Some e =>
      if match errors.As e with
         | Some myErr => auth_code (Code myErr)
         | None => false
         end
      then true
      else
        let errStr := strings.ToLower (errors.Error e) in
        strings.Contains errStr "access denied" ||
        strings.Contains errStr "authentication failed"
  end.

Section Reader.

(** A value of a column ([interface{}] in a row of the protocol client). *)
Variable V : Type.
(** The session of the protocol client, [*replication.BinlogStreamer]. *)
Variable BinlogStreamer : Type.
(** [replication.EventType] and its method [String()]. *)
Variable EventType : Type.
Variable EventType_String : EventType -> string.
(** [ToEventDML] of go/binlog/binlog_dml_event.go, which classifies the
    name of an event. *)
Variable ToEventDML : string -> EventDML.
(** The verb [%+v] at a coordinate. *)
Variable fmt_v : BinlogCoordinates -> string.
(** The case table of Go's library, [unicode.CaseRanges]. *)
Context {case_ranges : unicode.CaseRanges}.

(** Modelled from the spec: go/sql/types.go.  "A row is an ordered sequence
    of column values": [sql.ColumnValues] holds the values of a row, and
    [sql.ToColumnValues] builds it from the row of the protocol client. *)
Record ColumnValues : Type := mkColumnValues {
  abstractValues : list V
}.

Definition ToColumnValues (row : list V) : ColumnValues :=
  mkColumnValues row.

Record BinlogDMLEvent : Type := mkBinlogDMLEvent {
  DatabaseName : string;
  TableName : string;
  DML : EventDML;
  WhereColumnValues : option ColumnValues;
  NewColumnValues : option ColumnValues
}.

(** Modelled from the spec: go/binlog/binlog_dml_event.go.  A mutation
    "{schema, table, kind, beforeImage, afterImage}", both images unset
    when it is made. *)
Definition NewBinlogDMLEvent (databaseName tableName : string) (dml : EventDML)
    : BinlogDMLEvent :=
  mkBinlogDMLEvent databaseName tableName dml None None.

Record BinlogEntry : Type := mkBinlogEntry {
  Coordinates : BinlogCoordinates;
  DmlEvent : option BinlogDMLEvent
}.

(** Modelled from the spec: go/binlog/binlog_entry.go.  An entry
    "{coordinate, mutation}" at a coordinate, its mutation not yet set. *)
Definition NewBinlogEntryAt (coordinates : BinlogCoordinates) : BinlogEntry :=
  mkBinlogEntry coordinates None.

(** What the reader reads of [replication.BinlogEvent] and of
    [replication.RowsEvent]. *)
Record EventHeader : Type := mkEventHeader {
  Header_EventType : EventType;
  Header_LogPos : Z;
  Header_EventSize : Z
}.

Record BinlogEvent : Type := mkBinlogEvent {
  Header : EventHeader
}.

Record TableMapEvent : Type := mkTableMapEvent {
  Schema : string;
  Table_name : string
}.

Record RowsEvent : Type := mkRowsEvent {
  Table : TableMapEvent;
  Rows : list (list V)
}.

Record GoMySQLReader : Type := mkGoMySQLReader {
  migrationContext : MigrationContext;
  binlogStreamer : option BinlogStreamer;
  currentCoordinates : BinlogCoordinates;
  LastAppliedRowsEventHint : BinlogCoordinates;
  authFailureCount : Z
}.

Definition set_authFailureCount (this : GoMySQLReader) (n : Z) : GoMySQLReader :=
  mkGoMySQLReader (migrationContext this) (binlogStreamer this)
    (currentCoordinates this) (LastAppliedRowsEventHint this) n.

Definition set_currentCoordinates (this : GoMySQLReader) (c : BinlogCoordinates)
    : GoMySQLReader :=
  mkGoMySQLReader (migrationContext this) (binlogStreamer this)
    c (LastAppliedRowsEventHint this) (authFailureCount this).

Definition set_binlogStreamer (this : GoMySQLReader) (s : option BinlogStreamer)
    : GoMySQLReader :=
  mkGoMySQLReader (migrationContext this) s
    (currentCoordinates this) (LastAppliedRowsEventHint this)
    (authFailureCount this).

Definition set_LastAppliedRowsEventHint (this : GoMySQLReader)
    (c : BinlogCoordinates) : GoMySQLReader :=
  mkGoMySQLReader (migrationContext this) (binlogStreamer this)
    (currentCoordinates this) c (authFailureCount this).

(** The error of a tripped breaker: the [fmt.Errorf] of [handleAuthError]. *)
Definition tripped (count max : Z) (context : string) (err : error) : error :=
  errors.Errorf_w
    ("authentication failed " ++ fmt.d count ++ " times (max: " ++ fmt.d max ++
     ") during " ++ context ++ ", aborting to prevent firewall blocking: ")
    err.

(** handleAuthError processes authentication errors and applies circuit
    breaker logic *)
Definition handleAuthError (this : GoMySQLReader) (err : option error)
    (context : string) : GoMySQLReader * option error :=
  match err with
  | None =>
      (* Success case - reset counter if needed *)
      if 0 <? authFailureCount this
      then (set_authFailureCount this 0, None)
      else (this, None)
  | Some e =>
      if negb (isAuthenticationError err) then (this, err)
      else
        (* Authentication error - increment counter and check circuit breaker *)
        let this := set_authFailureCount this (GoInt.wrap (authFailureCount this + 1)) in
        let max := MaxAuthFailures (migrationContext this) in
        if (0 <? max) && (max <=? authFailureCount this)
        then (this, Some (tripped (authFailureCount this) max context e))
        else (this, err)
  end.

(** ConnectBinlogStreamer.  [StartSync] is the answer of
    [binlogSyncer.StartSync] to the position the reader asks for. *)
Definition ConnectBinlogStreamer (this : GoMySQLReader)
    (coordinates : BinlogCoordinates)
    (StartSync : Position -> option BinlogStreamer * option error)
    : GoMySQLReader * option error :=
  if IsEmpty coordinates
  then (this, Some (errorString "Empty coordinates at ConnectBinlogStreamer()"))
  else
    let this := set_currentCoordinates this coordinates in
    (* Start sync with specified binlog file and position *)
    let started :=
      StartSync (mkPosition (LogFile (currentCoordinates this))
                   (GoInt.uint32 (LogPos (currentCoordinates this)))) in
    let this := set_binlogStreamer this (fst started) in
    (* Handle the error (or success) with circuit breaker logic *)
    handleAuthError this (snd started) "connection".

(** The body of the loop of [handleRowsEvent] at row [i]: the entry it
    sends, or the panic of [rowsEvent.Rows[i+1]]. *)
Definition entry_of_row (this : GoMySQLReader) (rowsEvent : RowsEvent)
    (dml : EventDML) (i : nat) (row : list V) : BinlogEntry + panic :=
  let binlogEntry := NewBinlogEntryAt (currentCoordinates this) in
  let dmlEvent :=
    NewBinlogDMLEvent (Schema (Table rowsEvent)) (Table_name (Table rowsEvent)) dml in
  let with_event (ev : BinlogDMLEvent) : BinlogEntry :=
    mkBinlogEntry (Coordinates binlogEntry) (Some ev) in
  match dml with
  | InsertDML =>
      inl (with_event
        (mkBinlogDMLEvent (DatabaseName dmlEvent) (TableName dmlEvent) (DML dmlEvent)
           (WhereColumnValues dmlEvent) (Some (ToColumnValues row))))
  | UpdateDML =>
      match nth_error (Rows rowsEvent) (i + 1) with
      | Some next =>
          inl (with_event
            (mkBinlogDMLEvent (DatabaseName dmlEvent) (TableName dmlEvent) (DML dmlEvent)
               (Some (ToColumnValues row)) (Some (ToColumnValues next))))
      | None =>
          inr (index_out_of_range (i + 1) (List.length (Rows rowsEvent)))
      end
  | DeleteDML =>
      inl (with_event
        (mkBinlogDMLEvent (DatabaseName dmlEvent) (TableName dmlEvent) (DML dmlEvent)
           (Some (ToColumnValues row)) (NewColumnValues dmlEvent)))
  | NotDML => inl (with_event dmlEvent)
  end.

(** [for i, row := range rowsEvent.Rows], from index [i] on, [rest] being
    the rows not yet visited: the entries sent, and the panic that stopped
    the loop if one did. *)
Fixpoint rows_loop (this : GoMySQLReader) (rowsEvent : RowsEvent)
    (dml : EventDML) (i : nat) (rest : list (list V))
    : list BinlogEntry * option panic :=
  match rest with
  | [] => ([], None)
  | row :: rest' =>
      if EventDML_eqb dml UpdateDML && (i mod 2 =? 1)%nat
      then rows_loop this rowsEvent dml (S i) rest'
      else
        match entry_of_row this rowsEvent dml i row with
        | inr p => ([], Some p)
        | inl binlogEntry =>
            let (sent, p) := rows_loop this rowsEvent dml (S i) rest' in
            (binlogEntry :: sent, p)
        end
  end.

(** What a call of [handleRowsEvent] does: the reader it leaves, the
    entries it sent, and how it ended. *)
Record handled : Type := mkHandled {
  reader_after : GoMySQLReader;
  sent : list BinlogEntry;
  ended : completion
}.

Definition overflow_error (this : GoMySQLReader) : error :=
  errorString ("Unexpected rows event at " ++ fmt_v (currentCoordinates this) ++
               ", the binlog end_log_pos is overflow 4 bytes").

Definition unknown_dml_error (ev : BinlogEvent) : error :=
  errorString ("Unknown DML type: " ++ EventType_String (Header_EventType (Header ev))).

Definition handleRowsEvent (this : GoMySQLReader) (ev : BinlogEvent)
    (rowsEvent : RowsEvent) : handled :=
  if IsLogPosOverflowBeyond4Bytes (currentCoordinates this)
       (LastAppliedRowsEventHint this)
  then mkHandled this [] (Return (Some (overflow_error this)))
  else if SmallerThanOrEquals (currentCoordinates this)
            (LastAppliedRowsEventHint this)
  then mkHandled this [] (Return None)
  else
    let dml := ToEventDML (EventType_String (Header_EventType (Header ev))) in
    if EventDML_eqb dml NotDML
    then mkHandled this [] (Return (Some (unknown_dml_error ev)))
    else
      match rows_loop this rowsEvent dml 0 (Rows rowsEvent) with
      | (entries, Some p) => mkHandled this entries (Panic p)
      | (entries, None) =>
          mkHandled
            (set_LastAppliedRowsEventHint this (currentCoordinates this))
            entries (Return None)
      end.


(** ** The words of the design document *)

(** The order of coordinates: "compared first by logFile, then by
    logPosition". *)
Definition coord_lt (a b : BinlogCoordinates) : Prop :=
  (LogFile a <? LogFile b)%string = true \/
  (LogFile a = LogFile b /\ LogPos a < LogPos b).

Definition coord_le (a b : BinlogCoordinates) : Prop :=
  (LogFile a <? LogFile b)%string = true \/
  (LogFile a = LogFile b /\ LogPos a <= LogPos b).

(** "its message contains case-insensitive [pat]": a part of the message
    is [pat] up to the case of its letters. *)
Definition contains_fold (msg pat : string) : Prop :=
  exists pre mid post,
    msg = pre ++ mid ++ post /\ strings.ToLower mid = pat.

(** The recognized set of codes. *)
Definition recognized_code (code : Z) : Prop :=
  code = 1044 \/ code = 1045 \/ code = 1130 \/ code = 1698 \/ code = 3118.

(** "a known set of condition codes reported by the protocol client, or
    its message contains case-insensitive access denied or authentication
    failed". *)
Definition auth_denial (e : error) : Prop :=
  (exists m, wraps e (ofMyError m) /\ recognized_code (Code m)) \/
  contains_fold (errors.Error e) "access denied" \/
  contains_fold (errors.Error e) "authentication failed".

(** The caller hands [errs], one failure after the other, to
    [handleAuthError]: the reader left and what each call returned. *)
Fixpoint handleAuthErrors (this : GoMySQLReader) (errs : list error)
    (context : string) : GoMySQLReader * list (option error) :=
  match errs with
  | [] => (this, [])
  | e :: errs' =>
      let (this1, r) := handleAuthError this (Some e) context in
      let (this2, rs) := handleAuthErrors this1 errs' context in
      (this2, r :: rs)
  end.

(** The rows of an update event that holds the pairs [pairs]. *)
Fixpoint rows_of_pairs (pairs : list (list V * list V)) : list (list V) :=
  match pairs with
  | [] => []
  | (before, after) :: pairs' => before :: after :: rows_of_pairs pairs'
  end.

(** The rows of an update event, two by two; a row left alone at the end
    is in no pair. *)
Fixpoint pairs_of (rows : list (list V)) : list (list V * list V) :=
  match rows with
  | before :: after :: rest => (before, after) :: pairs_of rest
  | _ => []
  end.

(** The entry of an update of [before] into [after], at coordinate [c]. *)
Definition update_entry (c : BinlogCoordinates) (t : TableMapEvent)
    (pair : list V * list V) : BinlogEntry :=
  mkBinlogEntry c
    (Some (mkBinlogDMLEvent (Schema t) (Table_name t) UpdateDML
             (Some (ToColumnValues (fst pair)))
             (Some (ToColumnValues (snd pair))))).

(** The entry of the insert of [row], and of the delete of [row], at
    coordinate [c]. *)
Definition insert_entry (c : BinlogCoordinates) (t : TableMapEvent)
    (row : list V) : BinlogEntry :=
  mkBinlogEntry c
    (Some (mkBinlogDMLEvent (Schema t) (Table_name t) InsertDML
             None (Some (ToColumnValues row)))).

Definition delete_entry (c : BinlogCoordinates) (t : TableMapEvent)
    (row : list V) : BinlogEntry :=
  mkBinlogEntry c
    (Some (mkBinlogDMLEvent (Schema t) (Table_name t) DeleteDML
             (Some (ToColumnValues row)) None)).

(** The kind of row change of an event, as [handleRowsEvent] reads it. *)
Definition dml_of (ev : BinlogEvent) : EventDML :=
  ToEventDML (EventType_String (Header_EventType (Header ev))).

(** Every row of the event is in the entries sent. *)
Definition all_rows_sent (this : GoMySQLReader) (rowsEvent : RowsEvent)
    (dml : EventDML) (entries : list BinlogEntry) : Prop :=
  match dml with
  | UpdateDML =>
      exists pairs,
        Rows rowsEvent = rows_of_pairs pairs /\
        entries = map (update_entry (currentCoordinates this) (Table rowsEvent)) pairs
  | _ => List.length entries = List.length (Rows rowsEvent)
  end.

(** ** The rest of the reader *)

(** NewGoMySQLReader: a reader with no coordinates, no hint, no session
    and no failure counted.  (The syncer it builds from the connection
    configuration belongs to the protocol client.) *)
Definition NewGoMySQLReader (migrationContext : MigrationContext) : GoMySQLReader :=
  mkGoMySQLReader migrationContext None
    (mkBinlogCoordinates "" 0 0) (mkBinlogCoordinates "" 0 0) 0.

(** GetCurrentBinlogCoordinates: a copy of the current coordinates. *)
Definition GetCurrentBinlogCoordinates (this : GoMySQLReader) : BinlogCoordinates :=
  let returnCoordinates := currentCoordinates this in
  returnCoordinates.

(** [ev.Event], as far as the type switch of [StreamEvents] tells the
    events apart. *)
Inductive EventBody : Type :=
| RotateEvent (NextLogName : string)
| RowsEventBody (rowsEvent : RowsEvent)
| OtherEvent.

(** An event that [GetEvent] gives: its header, and its body. *)
Record FetchedEvent : Type := mkFetchedEvent {
  fetched_ev : BinlogEvent;
  fetched_body : EventBody
}.

(** One turn of the loop of [StreamEvents], as its surroundings decide
    it: [canStopStreaming] answers true, or it answers false and
    [GetEvent] gives an event, or an error. *)
Inductive turn : Type :=
| stop
| fetch_ok (fe : FetchedEvent)
| fetch_err (err : error).

(** What a run of [StreamEvents] has done: the reader it leaves, the
    entries it sent, the events it fetched, and how it ended; [None] when
    the turns given are used up and the loop waits for the next one. *)
Record streamed : Type := mkStreamed {
  stream_reader : GoMySQLReader;
  stream_sent : list BinlogEntry;
  stream_fetched : list FetchedEvent;
  stream_ended : option completion
}.

(** The loop goes on after the event [fe], which sent [entries]. *)
Definition and_then (fe : FetchedEvent) (entries : list BinlogEntry)
    (rest : streamed) : streamed :=
  mkStreamed (stream_reader rest) (entries ++ stream_sent rest)%list
    (fe :: stream_fetched rest) (stream_ended rest).

(** The [for] loop of [StreamEvents].  The positions of a header are of
    32 bits, so that [int64(ev.Header.LogPos)] is the position itself. *)
Fixpoint stream_loop (this : GoMySQLReader) (turns : list turn) : streamed :=
  match turns with
  | [] => mkStreamed this [] [] None
  | stop :: _ => mkStreamed this [] [] (Some (Return None))
  | fetch_err err :: _ =>
      (* Handle authentication errors with circuit breaker *)
      let (this, verdict) := handleAuthError this (Some err) "streaming" in
      mkStreamed this [] [] (Some (Return verdict))
  | fetch_ok fe :: turns' =>
      (* Reset counter on successful event (using handleAuthError with nil) *)
      let this := fst (handleAuthError this None "event retrieval") in
      let this :=
        set_currentCoordinates this
          (mkBinlogCoordinates (LogFile (currentCoordinates this))
             (Header_LogPos (Header (fetched_ev fe)))
             (Header_EventSize (Header (fetched_ev fe)))) in
      match fetched_body fe with
      | RotateEvent NextLogName =>
          let this :=
            set_currentCoordinates this
              (mkBinlogCoordinates NextLogName
                 (LogPos (currentCoordinates this))
                 (EventSize (currentCoordinates this))) in
          and_then fe [] (stream_loop this turns')
      | RowsEventBody rowsEvent =>
          let h := handleRowsEvent this (fetched_ev fe) rowsEvent in
          match ended h with
          | Return None =>
              and_then fe (sent h) (stream_loop (reader_after h) turns')
          | c => mkStreamed (reader_after h) (sent h) [fe] (Some c)
          end
      | OtherEvent => and_then fe [] (stream_loop this turns')
      end
  end.

(** StreamEvents.  [stopped] is the answer of [canStopStreaming] before the
    loop. *)
Definition StreamEvents (this : GoMySQLReader) (stopped : bool)
    (turns : list turn) : streamed :=
  if stopped then mkStreamed this [] [] (Some (Return None))
  else stream_loop this turns.

(** The reader as the loop has it when it looks at the body of [fe]. *)
Definition at_event (this : GoMySQLReader) (fe : FetchedEvent) : GoMySQLReader :=
  set_currentCoordinates (fst (handleAuthError this None "event retrieval"))
    (mkBinlogCoordinates
       (LogFile (currentCoordinates (fst (handleAuthError this None "event retrieval"))))
       (Header_LogPos (Header (fetched_ev fe)))
       (Header_EventSize (Header (fetched_ev fe)))).

(** An entry lies at or before another, in the order of the log. *)
Definition entry_le (a b : BinlogEntry) : Prop :=
  coord_le (Coordinates a) (Coordinates b).

(** The coordinates after the event [fe] has been fetched at [c]: the
    position and the size of its header, and the log file a rotation
    names. *)
Definition advance (c : BinlogCoordinates) (fe : FetchedEvent) : BinlogCoordinates :=
  match fetched_body fe with
  | RotateEvent NextLogName =>
      mkBinlogCoordinates NextLogName
        (Header_LogPos (Header (fetched_ev fe)))
        (Header_EventSize (Header (fetched_ev fe)))
  | _ =>
      mkBinlogCoordinates (LogFile c)
        (Header_LogPos (Header (fetched_ev fe)))
        (Header_EventSize (Header (fetched_ev fe)))
  end.

(** How many of [errs] are classified as authentication failures. *)
Definition classified (errs : list error) : Z :=
  Z.of_nat (List.length (filter (fun e => isAuthenticationError (Some e)) errs)).

(** An entry is whole: it has a mutation, with the image after the change
    alone for an insert, the image before it alone for a delete, and both
    for an update. *)
Definition whole_entry (e : BinlogEntry) : Prop :=
  match DmlEvent e with
  | None => False
  | Some d =>
      match DML d with
      | InsertDML => WhereColumnValues d = None /\ NewColumnValues d <> None
      | DeleteDML => WhereColumnValues d <> None /\ NewColumnValues d = None
      | UpdateDML => WhereColumnValues d <> None /\ NewColumnValues d <> None
      | NotDML => False
      end
  end.

(** The events [fes], fetched one after the other from the reader [this]
    on, are handled without an error: of each rows event among them,
    [handleRowsEvent] returns [nil] at the reader that the events before
    it have left. *)
Definition handled_without_error (this : GoMySQLReader)
    (fes : list FetchedEvent) : Prop :=
  forall (pre : list FetchedEvent) (fe : FetchedEvent)
         (post : list FetchedEvent) (rowsEvent : RowsEvent),
    fes = (pre ++ fe :: post)%list ->
    fetched_body fe = RowsEventBody rowsEvent ->
    ended (handleRowsEvent
             (at_event (stream_reader (stream_loop this (map fetch_ok pre))) fe)
             (fetched_ev fe) rowsEvent) = Return None.

(** ** Lemmas on integers, strings and errors *)

Lemma wrap_in_range (z : Z) : GoInt.in_range z -> GoInt.wrap z = z.
Proof.
  unfold GoInt.in_range, GoInt.wrap, GoInt.min_int, GoInt.max_int.
  intros H. rewrite Z.mod_small; lia.
Qed.

Lemma compare_refl (s : string) : (s ?= s)%string = Eq.
Proof.
  pose proof (String.compare_antisym s s) as H.
  destruct (s ?= s)%string; simpl in H; congruence.
Qed.

Lemma ltb_irrefl (s : string) : (s <? s)%string = false.
Proof. unfold String.ltb. now rewrite compare_refl. Qed.

Lemma ltb_neq (a b : string) : (a <? b)%string = true -> a <> b.
Proof. intros H ->. rewrite ltb_irrefl in H. discriminate. Qed.

Lemma ltb_asym (a b : string) :
  (a <? b)%string = true -> (b <? a)%string = false.
Proof.
  unfold String.ltb. rewrite (String.compare_antisym b a).
  destruct (a ?= b)%string; simpl; congruence.
Qed.

Lemma ltb_total (a b : string) :
  (a <? b)%string = false -> a <> b -> (b <? a)%string = true.
Proof.
  unfold String.ltb. intros H Hne.
  rewrite (String.compare_antisym b a).
  destruct (a ?= b)%string eqn:E; simpl; try congruence.
  apply String.compare_eq_iff in E. contradiction.
Qed.

Lemma SmallerThan_spec (a b : BinlogCoordinates) :
  SmallerThan a b = true <-> coord_lt a b.
Proof.
  unfold SmallerThan, coord_lt.
  destruct (LogFile a <? LogFile b)%string eqn:Hlt.
  - tauto.
  - destruct (String.eqb_spec (LogFile a) (LogFile b)) as [He | Hne]; simpl.
    + destruct (Z.ltb_spec (LogPos a) (LogPos b)); split; intros; try tauto;
        try discriminate.
      destruct H0 as [H0 | [_ H0]]; [discriminate | lia].
    + split; [discriminate |]. intros [H | [H _]]; [discriminate | contradiction].
Qed.

Lemma SmallerThanOrEquals_spec (a b : BinlogCoordinates) :
  SmallerThanOrEquals a b = true <-> coord_le a b.
Proof.
  unfold SmallerThanOrEquals.
  destruct (SmallerThan a b) eqn:Hs.
  - apply SmallerThan_spec in Hs. unfold coord_lt, coord_le in *.
    split; [| tauto]. intros _. destruct Hs as [H | [H1 H2]]; [tauto | right; split; [tauto | lia]].
  - assert (Hn : ~ coord_lt a b).
    { intros H. apply SmallerThan_spec in H. congruence. }
    unfold coord_lt, coord_le in *.
    destruct (String.eqb_spec (LogFile a) (LogFile b)) as [He | Hne]; simpl.
    + destruct (Z.eqb_spec (LogPos a) (LogPos b)); split; intros; try tauto;
        try discriminate.
      * right. split; [tauto | lia].
      * destruct H as [H | [_ H]]; [tauto |].
        exfalso. apply Hn. right. split; [tauto | lia].
    + split; [discriminate |]. intros [H | [H _]]; [tauto | contradiction].
Qed.

(** The order is total: not strictly greater is smaller or equal. *)
Lemma SmallerThanOrEquals_negb (a b : BinlogCoordinates) :
  SmallerThanOrEquals a b = negb (SmallerThan b a).
Proof.
  unfold SmallerThanOrEquals, SmallerThan.
  rewrite (String.eqb_sym (LogFile b) (LogFile a)).
  destruct (LogFile a <? LogFile b)%string eqn:Hab.
  - rewrite (ltb_asym _ _ Hab).
    destruct (String.eqb_spec (LogFile a) (LogFile b)) as [He | Hne]; simpl.
    + apply ltb_neq in Hab. contradiction.
    + reflexivity.
  - destruct (String.eqb_spec (LogFile a) (LogFile b)) as [He | Hne]; simpl.
    + rewrite He, ltb_irrefl.
      destruct (Z.ltb_spec (LogPos a) (LogPos b)), (Z.ltb_spec (LogPos b) (LogPos a)),
        (Z.eqb_spec (LogPos a) (LogPos b)); simpl; try reflexivity; lia.
    + now rewrite (ltb_total _ _ Hab Hne).
Qed.

Lemma prefix_spec (p s : string) :
  String.prefix p s = true <-> exists post, s = p ++ post.
Proof.
  revert p. induction s as [| c s IH]; intros [| a p]; simpl.
  - split; [exists ""; reflexivity | reflexivity].
  - split; [discriminate | intros [post H]; discriminate].
  - split; [exists (String c s); reflexivity | reflexivity].
  - destruct (ascii_dec a c) as [-> | Hne].
    + rewrite IH. split; intros [post H]; exists post.
      * now rewrite H.
      * now injection H.
    + split; [discriminate |]. intros [post H]. injection H as H1 _.
      symmetry in H1. contradiction.
Qed.

Lemma Contains_spec (s pat : string) :
  strings.Contains s pat = true <-> exists pre post, s = pre ++ pat ++ post.
Proof.
  induction s as [| c s IH]; cbn [strings.Contains];
    rewrite orb_true_iff, prefix_spec.
  - split.
    + intros [[post H] | H]; [| discriminate]. exists "", post. exact H.
    + intros [[| a pre] [post H]]; [left; exists post; exact H | discriminate].
  - rewrite IH. split.
    + intros [[post H] | [pre [post H]]].
      * exists "", post. exact H.
      * exists (String c pre), post. simpl. now rewrite H.
    + intros [[| a pre] [post H]].
      * left. exists post. exact H.
      * right. exists pre, post. simpl in H. now injection H.
Qed.

Lemma string_app_assoc (a b c : string) : (a ++ b) ++ c = a ++ b ++ c.
Proof. induction a as [| x a IH]; simpl; [reflexivity | now rewrite IH]. Qed.

(** ** The library: UTF-8 and the case of runes *)

Lemma string_app_nil_r (a : string) : a ++ "" = a.
Proof. induction a as [| x a IH]; simpl; [reflexivity | now rewrite IH]. Qed.

Lemma string_length_app (a b : string) :
  String.length (a ++ b) = (String.length a + String.length b)%nat.
Proof. induction a as [| x a IH]; simpl; [reflexivity | now rewrite IH]. Qed.

Lemma div2_between (lo hi : nat) :
  (lo < hi)%nat -> (lo <= Nat.div2 (lo + hi) < hi)%nat.
Proof.
  intros H. rewrite Nat.div2_div.
  pose proof (Nat.div_mod_eq (lo + hi) 2) as E.
  pose proof (Nat.mod_upper_bound (lo + hi) 2 ltac:(lia)). lia.
Qed.

(** The turns given to the binary search of [to] are enough. *)
Lemma to_search_turns (turns1 : nat) :
  forall (turns2 : nat) (_case r : Z) (caseRange : list unicode.CaseRange)
         (lo hi : nat),
  (hi - lo < turns1)%nat -> (hi - lo < turns2)%nat ->
  unicode.to_search turns1 _case r caseRange lo hi =
  unicode.to_search turns2 _case r caseRange lo hi.
Proof.
  induction turns1 as [| turns1 IH]; intros turns2 _case r caseRange lo hi H1 H2;
    [lia |].
  destruct turns2 as [| turns2]; [lia |].
  cbn [unicode.to_search].
  destruct (Nat.ltb_spec lo hi) as [Hlt | Hge]; [| reflexivity].
  pose proof (div2_between lo hi Hlt) as Hm.
  destruct (nth_error caseRange (Nat.div2 (lo + hi))) as [cr |]; [| reflexivity].
  destruct ((unicode.Lo cr <=? r) && (r <=? unicode.Hi cr)); [reflexivity |].
  destruct (r <? unicode.Lo cr); apply IH; lia.
Qed.

(** *** The decoder *)

Lemma DecodeRuneInString_decode (s : string) :
  utf8.DecodeRuneInString s =
  decode (len s) (byte_at s 0) (byte_at s 1) (byte_at s 2) (byte_at s 3).
Proof. reflexivity. Qed.

Lemma first_lead (b : Z) : lead b (utf8.first b).
Proof.
  unfold utf8.first.
  repeat match goal with
  | |- context [?a <? ?c] => destruct (Z.ltb_spec a c)
  | |- context [?a =? ?c] => destruct (Z.eqb_spec a c)
  end; constructor; lia.
Qed.


Ltac compute_closed t := let v := eval vm_compute in t in change t with v.

Ltac decode_lead X :=
  compute_closed (utf8.as_ <=? X); compute_closed (X =? utf8.xx); cbv iota;
  try (compute_closed (Z.land X 7); compute_closed (utf8.acceptRanges (Z.shiftr X 4));
       cbn [utf8.lo utf8.hi];
       repeat match goal with
       | |- context [Z.leb (Zpos ?p) (Zpos ?q)] => compute_closed (Z.leb (Zpos p) (Zpos q))
       end; cbv iota).

Ltac tests :=
  repeat match goal with
  | |- context [?a <? ?c] => destruct (Z.ltb_spec a c)
  | |- context [?a <=? ?c] => destruct (Z.leb_spec a c)
  end; cbn [orb]; cbv iota.

Lemma decode_shape (n s0 s1 s2 s3 : Z) (c : Z) (w : nat) :
  1 <= n ->
  decode n s0 s1 s2 s3 = (c, w) ->
  (c = utf8.RuneError /\ w = 1%nat) \/
  (s0 < 0x80 /\ c = s0 /\ w = 1%nat) \/
  (0xC2 <= s0 /\ (2 <= w <= 4)%nat /\ Z.of_nat w <= n /\
   0x80 <= s1 <= 0xBF /\
   ((3 <= w)%nat -> 0x80 <= s2 <= 0xBF) /\
   ((4 <= w)%nat -> 0x80 <= s3 <= 0xBF)).
Proof.
  intros Hn. unfold decode. cbv zeta.
  destruct (Z.ltb_spec n 1) as [? | _]; [lia |].
  destruct (first_lead s0) as [b Hb | b Hb | b Hb | b Hb | b Hb | b Hb | b Hb | b Hb | b Hb].
  1: decode_lead utf8.as_.
  2: decode_lead utf8.xx.
  3: decode_lead utf8.s1.
  4: decode_lead utf8.s2.
  5: decode_lead utf8.s3.
  6: decode_lead utf8.s4.
  7: decode_lead utf8.s5.
  8: decode_lead utf8.s6.
  9: decode_lead utf8.s7.
  all: cbv [utf8.locb utf8.hicb].
  all: tests.
  all: intros E; injection E as <- <-.
  all: try (left; split; reflexivity).
  all: try (right; left; repeat split; lia).
  all: right; right; repeat split; lia.
Qed.

Lemma decode_stable (n s0 s1 s2 s3 n' s1' s2' s3' : Z) (c : Z) (w : nat) :
  1 <= n ->
  decode n s0 s1 s2 s3 = (c, w) ->
  (c, w) <> (utf8.RuneError, 1%nat) ->
  Z.of_nat w <= n' ->
  ((2 <= w)%nat -> s1' = s1) ->
  ((3 <= w)%nat -> s2' = s2) ->
  ((4 <= w)%nat -> s3' = s3) ->
  decode n' s0 s1' s2' s3' = (c, w).
Proof.
  intros Hn. unfold decode. cbv zeta.
  destruct (Z.ltb_spec n 1) as [? | _]; [lia |].
  destruct (first_lead s0) as [b Hb | b Hb | b Hb | b Hb | b Hb | b Hb | b Hb | b Hb | b Hb].
  1: decode_lead utf8.as_.
  2: decode_lead utf8.xx.
  3: decode_lead utf8.s1.
  4: decode_lead utf8.s2.
  5: decode_lead utf8.s3.
  6: decode_lead utf8.s4.
  7: decode_lead utf8.s5.
  8: decode_lead utf8.s6.
  9: decode_lead utf8.s7.
  all: cbv [utf8.locb utf8.hicb].
  all: intros E Hv Hw H1 H2 H3.
  all: repeat match type of E with
       | context [?a <? ?c] => destruct (Z.ltb_spec a c)
       end; cbn [orb] in E; cbv iota in E.
  all: revert E.
  all: intros E; injection E as <- <-.
  all: try (exfalso; apply Hv; reflexivity).
  all: try (exfalso; cbn in Hw; lia).
  all: try reflexivity.
  all: try (rewrite H1 in * by lia); try (rewrite H2 in * by lia);
       try (rewrite H3 in * by lia).
  all: repeat match goal with
       | |- context [?a <? ?c] => destruct (Z.ltb_spec a c)
       end; cbn [orb]; cbv iota.
  all: try reflexivity; try lia.
Qed.

(** *** Bytes *)

Lemma byte_val_range (c : ascii) : 0 <= byte_val c < 256.
Proof.
  unfold byte_val. pose proof (N_ascii_bounded c). lia.
Qed.

Lemma chr_byte_val (c : ascii) : chr (byte_val c) = c.
Proof. unfold chr, byte_val. rewrite N2Z.id. apply ascii_N_embedding. Qed.

Lemma byte_val_chr (b : Z) : 0 <= b < 256 -> byte_val (chr b) = b.
Proof.
  intros H. unfold chr, byte_val. rewrite N_ascii_embedding by lia. lia.
Qed.

Lemma byte_range (x : Z) : 0 <= byte x < 256.
Proof.
  unfold byte. change 255 with (Z.ones 8). rewrite Z.land_ones by lia.
  apply Z.mod_pos_bound. reflexivity.
Qed.

Lemma maskx_range (x : Z) : 0 <= Z.land x utf8.maskx < 256.
Proof.
  change utf8.maskx with (Z.ones 6). rewrite Z.land_ones by lia.
  pose proof (Z.mod_pos_bound x (2 ^ 6) eq_refl). lia.
Qed.

Lemma byte_forall (P : Z -> bool) :
  forallb P (map Z.of_nat (seq 0 256)) = true ->
  forall v, 0 <= v < 256 -> P v = true.
Proof.
  intros H v Hv. rewrite forallb_forall in H. apply H.
  apply in_map_iff. exists (Z.to_nat v). split; [lia |].
  apply in_seq. lia.
Qed.

Lemma high_byte (t v : Z) :
  In t [utf8.tx; utf8.t2; utf8.t3; utf8.t4] -> 0 <= v < 256 ->
  128 <= byte_val (chr (Z.lor t v)).
Proof.
  intros Ht Hv.
  assert (H : (128 <=? byte_val (chr (Z.lor t v))) = true).
  { revert v Hv. apply byte_forall.
    destruct Ht as [<- | [<- | [<- | [<- | []]]]]; vm_compute; reflexivity. }
  now apply Z.leb_le.
Qed.

(** *** Strings *)

Lemma take_drop (n : nat) (s : string) : take n s ++ drop n s = s.
Proof.
  revert s. induction n as [| n IH]; intros [| c s]; simpl; try reflexivity.
  now rewrite IH.
Qed.

Lemma length_take (n : nat) (s : string) :
  (n <= String.length s)%nat -> String.length (take n s) = n.
Proof.
  revert s. induction n as [| n IH]; intros [| c s]; simpl; intros H;
    try reflexivity; try lia.
  rewrite IH; lia.
Qed.

Lemma length_drop (n : nat) (s : string) :
  String.length (drop n s) = (String.length s - n)%nat.
Proof.
  revert s. induction n as [| n IH]; intros [| c s]; simpl; try reflexivity.
  apply IH.
Qed.

Lemma drop_app (n : nat) (a b : string) :
  (n <= String.length a)%nat -> drop n (a ++ b) = drop n a ++ b.
Proof.
  revert a. induction n as [| n IH]; intros [| c a]; simpl; intros H;
    try reflexivity; try lia.
  apply IH. lia.
Qed.

Lemma drop_take_app (n : nat) (s t : string) :
  (n <= String.length s)%nat -> drop n (take n s ++ t) = t.
Proof.
  intros H. rewrite drop_app by (rewrite length_take; lia).
  replace (drop n (take n s)) with ""; [reflexivity |].
  revert s H. induction n as [| n IH]; intros [| c s]; simpl; intros H;
    try reflexivity; try lia.
  apply IH. lia.
Qed.

Lemma byte_at_app (a b : string) (i : nat) :
  (i < String.length a)%nat -> byte_at (a ++ b) i = byte_at a i.
Proof.
  intros H. unfold byte_at. now rewrite <- append_correct1.
Qed.

Lemma byte_at_app_r (a b : string) :
  byte_at (a ++ b) (String.length a) = byte_at b 0.
Proof.
  unfold byte_at. now rewrite (append_correct2 a b 0).
Qed.

Lemma byte_at_take (n i : nat) (s : string) :
  (i < n)%nat -> (n <= String.length s)%nat -> byte_at (take n s) i = byte_at s i.
Proof.
  intros Hi Hn. rewrite <- (take_drop n s) at 2.
  symmetry. apply byte_at_app. rewrite length_take; lia.
Qed.

Lemma len_app (a b : string) : len (a ++ b) = len a + len b.
Proof. unfold len. rewrite string_length_app. lia. Qed.

Lemma string_app_eq_app (a1 b1 a2 b2 : string) :
  a1 ++ b1 = a2 ++ b2 ->
  exists l, (a1 = a2 ++ l /\ b2 = l ++ b1) \/ (a2 = a1 ++ l /\ b1 = l ++ b2).
Proof.
  revert a2. induction a1 as [| x a1 IH]; intros a2 H.
  - exists a2. right. auto.
  - destruct a2 as [| y a2].
    + exists (String x a1). left. auto.
    + simpl in H. injection H as -> H.
      destruct (IH _ H) as [l [[E1 E2] | [E1 E2]]]; exists l; [left | right];
        simpl; now rewrite E1.
Qed.

(** *** The decoder on strings *)

Lemma len_pos (s : string) : s <> "" -> 1 <= len s.
Proof. destruct s; [congruence | unfold len; simpl; lia]. Qed.

Lemma byte_at_range (s : string) (i : nat) : 0 <= byte_at s i < 256.
Proof.
  unfold byte_at. destruct (get i s); [apply byte_val_range | lia].
Qed.

Lemma Decode_width (s : string) (c : Z) (w : nat) :
  s <> "" -> utf8.DecodeRuneInString s = (c, w) ->
  (1 <= w <= String.length s)%nat.
Proof.
  intros Hs E. rewrite DecodeRuneInString_decode in E.
  pose proof (len_pos s Hs) as Hn.
  destruct (decode_shape _ _ _ _ _ _ _ Hn E) as [[_ ->] | [[_ [_ ->]] | H]].
  - unfold len in Hn. lia.
  - unfold len in Hn. lia.
  - unfold len in H. lia.
Qed.

Lemma Decode_continuation (s : string) (c : Z) (w i : nat) :
  s <> "" -> utf8.DecodeRuneInString s = (c, w) ->
  (1 <= i < w)%nat -> continuation (byte_at s i).
Proof.
  intros Hs E Hi. rewrite DecodeRuneInString_decode in E.
  pose proof (len_pos s Hs) as Hn.
  destruct (decode_shape _ _ _ _ _ _ _ Hn E) as [[_ ->] | [[_ [_ ->]] | H]];
    try lia.
  destruct H as [_ [Hw [_ [H1 [H2 H3]]]]]. unfold continuation.
  destruct i as [| [| [| [| i]]]]; lia.
Qed.

Lemma Decode_first_continuation (s : string) :
  s <> "" -> continuation (byte_at s 0) ->
  utf8.DecodeRuneInString s = (utf8.RuneError, 1%nat).
Proof.
  intros Hs Hc. unfold continuation in Hc.
  destruct (utf8.DecodeRuneInString s) as [c w] eqn:E.
  rewrite DecodeRuneInString_decode in E.
  pose proof (len_pos s Hs) as Hn.
  destruct (decode_shape _ _ _ _ _ _ _ Hn E) as [[-> ->] | [[? _] | [? _]]];
    [reflexivity | lia | lia].
Qed.

Lemma Decode_ascii (a : ascii) (s : string) :
  byte_val a < utf8.RuneSelf ->
  utf8.DecodeRuneInString (String a s) = (byte_val a, 1%nat).
Proof.
  intros Ha. rewrite DecodeRuneInString_decode.
  change (byte_at (String a s) 0) with (byte_val a).
  unfold decode. cbv zeta.
  destruct (Z.ltb_spec (len (String a s)) 1) as [H | _].
  { unfold len in H. simpl in H. lia. }
  unfold utf8.first.
  destruct (Z.ltb_spec (byte_val a) 128) as [_ | H];
    [reflexivity | unfold utf8.RuneSelf in Ha; lia].
Qed.

(** A rune that is decoded is decoded from its own bytes, whatever comes
    after them. *)
Lemma Decode_stable (s t : string) (c : Z) (w : nat) :
  s <> "" -> utf8.DecodeRuneInString s = (c, w) ->
  (c, w) <> (utf8.RuneError, 1%nat) ->
  utf8.DecodeRuneInString (take w s ++ t) = (c, w).
Proof.
  intros Hs E Hv.
  destruct (Decode_width s c w Hs E) as [Hw1 Hw2].
  rewrite DecodeRuneInString_decode in *.
  pose proof (len_pos s Hs) as Hn.
  assert (H0 : byte_at (take w s ++ t) 0 = byte_at s 0).
  { rewrite byte_at_app by (rewrite length_take; lia).
    apply byte_at_take; lia. }
  rewrite H0.
  apply (decode_stable _ _ _ _ _ _ _ _ _ _ _ Hn E Hv).
  - rewrite len_app. unfold len. rewrite length_take by lia. lia.
  - intros H. rewrite byte_at_app by (rewrite length_take; lia).
    apply byte_at_take; lia.
  - intros H. rewrite byte_at_app by (rewrite length_take; lia).
    apply byte_at_take; lia.
  - intros H. rewrite byte_at_app by (rewrite length_take; lia).
    apply byte_at_take; lia.
Qed.

(** *** The encoder *)

Lemma AppendRune_ascii (r : Z) :
  0 <= r < utf8.RuneSelf -> utf8.AppendRune r = String (chr r) "".
Proof.
  intros H. unfold utf8.RuneSelf in H. unfold utf8.AppendRune.
  rewrite Z.mod_small by lia.
  destruct (Z.leb_spec r utf8.rune1Max) as [_ | H']; [| unfold utf8.rune1Max in H'; lia].
  unfold utf8.bytes, byte. cbn [map string_of_list_ascii].
  change 255 with (Z.ones 8). rewrite Z.land_ones by lia.
  rewrite Z.mod_small by lia. reflexivity.
Qed.

Lemma AppendRune_class (r : Z) :
  (exists a, utf8.AppendRune r = String a "" /\ byte_val a < utf8.RuneSelf) \/
  (utf8.AppendRune r <> "" /\ all_high (utf8.AppendRune r) = true).
Proof.
  unfold utf8.AppendRune.
  destruct (Z.leb_spec (r mod 2 ^ 32) utf8.rune1Max) as [H | H].
  - left. exists (chr (byte r)). split; [reflexivity |].
    rewrite byte_val_chr by apply byte_range.
    unfold byte. change 255 with (Z.ones 8). rewrite Z.land_ones by lia.
    rewrite <- (Z.mod_mod_divide r (2 ^ 32) (2 ^ 8)) by (exists (2 ^ 24); reflexivity).
    pose proof (Z.mod_pos_bound r (2 ^ 32) eq_refl).
    rewrite Z.mod_small; unfold utf8.rune1Max, utf8.RuneSelf in *; lia.
  - right. unfold utf8.appendRuneNonASCII. cbv zeta.
    assert (Hh : forall t v, In t [utf8.tx; utf8.t2; utf8.t3; utf8.t4] ->
                   0 <= v < 256 ->
                   (utf8.RuneSelf <=? byte_val (chr (Z.lor t v))) = true).
    { intros t v Ht Hv. apply Z.leb_le. now apply high_byte. }
    repeat match goal with
    | |- context [if ?b then _ else _] => destruct b
    end; (split; [discriminate |]);
      unfold utf8.bytes; cbn [map string_of_list_ascii all_high];
      rewrite ?Hh; try reflexivity;
      try apply byte_range; try apply maskx_range; simpl; tauto.
Qed.

Lemma written_class (r : Z) :
  written r = "" \/
  (exists a, written r = String a "" /\ byte_val a < utf8.RuneSelf) \/
  (written r <> "" /\ all_high (written r) = true).
Proof.
  unfold written. destruct (0 <=? r); [| left; reflexivity].
  right. apply AppendRune_class.
Qed.

Lemma written_RuneError :
  written utf8.RuneError <> "" /\ all_high (written utf8.RuneError) = true.
Proof. split; [discriminate | vm_compute; reflexivity]. Qed.

Lemma isASCII_app (a b : string) :
  strings.isASCII (a ++ b) = strings.isASCII a && strings.isASCII b.
Proof.
  induction a as [| c a IH]; simpl; [reflexivity |].
  now rewrite IH, andb_assoc.
Qed.

(** A string of bytes above the ASCII ones that is ASCII is empty. *)
Lemma all_high_isASCII (s : string) :
  all_high s = true -> strings.isASCII s = true -> s = "".
Proof.
  destruct s as [| c s]; [reflexivity |]. simpl.
  rewrite !andb_true_iff, Z.leb_le, Z.ltb_lt. lia.
Qed.

(** *** [strings.Map] *)

Section Map.

Variable mapping : Z -> Z.
Hypothesis mapping_RuneError : mapping utf8.RuneError = utf8.RuneError.

Lemma map_runes_turns (turns1 : nat) :
  forall (turns2 : nat) (s : string),
  (String.length s <= turns1)%nat -> (String.length s <= turns2)%nat ->
  strings.map_runes mapping turns1 s = strings.map_runes mapping turns2 s.
Proof.
  induction turns1 as [| turns1 IH]; intros turns2 s H1 H2.
  - destruct s; [| simpl in H1; lia]. now destruct turns2.
  - destruct s as [| a s]; [now destruct turns2 |].
    destruct turns2 as [| turns2]; [simpl in H2; lia |].
    cbn [strings.map_runes].
    destruct (utf8.DecodeRuneInString (String a s)) as [c w] eqn:E.
    assert (Hs : String a s <> "") by discriminate.
    destruct (Decode_width _ _ _ Hs E) as [Hw _].
    f_equal. apply IH; rewrite length_drop; cbn [String.length] in *; lia.
Qed.

Lemma Map_nil : strings.Map mapping "" = "".
Proof. reflexivity. Qed.

Lemma Map_step (s : string) (c : Z) (w : nat) :
  s <> "" -> utf8.DecodeRuneInString s = (c, w) ->
  strings.Map mapping s = written (mapping c) ++ strings.Map mapping (drop w s).
Proof.
  intros Hs E. unfold strings.Map.
  destruct (Decode_width _ _ _ Hs E) as [Hw _].
  destruct s as [| a s]; [congruence |].
  cbn [String.length strings.map_runes]. rewrite E. unfold written. f_equal.
  apply map_runes_turns; rewrite length_drop; cbn [String.length]; lia.
Qed.

(** A rune of which something ASCII, or nothing, is written is one that
    was decoded from bytes of its own. *)
Lemma written_ascii_valid (c : Z) (w : nat) :
  strings.isASCII (written (mapping c)) = true ->
  (c, w) <> (utf8.RuneError, 1%nat).
Proof.
  intros H E. injection E as -> _. rewrite mapping_RuneError in H.
  destruct written_RuneError as [Hne Hh].
  now apply Hne, all_high_isASCII.
Qed.

(** The mapping of a string whose runes all go to ASCII goes on with what
    follows the string. *)
Lemma Map_app_ascii (mid : string) :
  forall post : string,
  strings.isASCII (strings.Map mapping mid) = true ->
  strings.Map mapping (mid ++ post) =
    strings.Map mapping mid ++ strings.Map mapping post.
Proof.
  remember (String.length mid) as n eqn:En. revert mid En.
  induction n as [n IH] using lt_wf_ind. intros mid En post Ha.
  destruct mid as [| a mid']; [reflexivity |].
  set (mid := String a mid') in *.
  assert (Hs : mid <> "") by discriminate.
  destruct (utf8.DecodeRuneInString mid) as [c w] eqn:E.
  destruct (Decode_width _ _ _ Hs E) as [Hw1 Hw2].
  rewrite (Map_step mid c w Hs E) in Ha |- *.
  rewrite isASCII_app, andb_true_iff in Ha. destruct Ha as [Ha1 Ha2].
  pose proof (written_ascii_valid c w Ha1) as Hv.
  assert (E' : utf8.DecodeRuneInString (mid ++ post) = (c, w)).
  { rewrite <- (take_drop w mid), string_app_assoc.
    now apply Decode_stable. }
  assert (Hs' : mid ++ post <> "") by discriminate.
  rewrite (Map_step (mid ++ post) c w Hs' E').
  rewrite drop_app by lia. rewrite string_app_assoc. f_equal.
  apply (IH (String.length (drop w mid))); [| reflexivity | exact Ha2].
  rewrite length_drop. lia.
Qed.

(** The first byte of such a string is no continuation byte. *)
Lemma Map_ascii_first (mid : string) :
  mid <> "" -> strings.isASCII (strings.Map mapping mid) = true ->
  ~ continuation (byte_at mid 0).
Proof.
  intros Hs Ha Hc.
  pose proof (Decode_first_continuation mid Hs Hc) as E.
  rewrite (Map_step mid _ _ Hs E) in Ha.
  rewrite isASCII_app, andb_true_iff in Ha. destruct Ha as [Ha _].
  now apply (written_ascii_valid _ 1%nat) in Ha.
Qed.

(** The decoder finds the start of a rune again: what is written for a
    string that starts a rune ends what is written for any string that
    ends with it. *)
Lemma Map_resync (pre : string) :
  forall t : string,
  (t <> "" -> ~ continuation (byte_at t 0)) ->
  exists written_pre,
    strings.Map mapping (pre ++ t) = written_pre ++ strings.Map mapping t.
Proof.
  remember (String.length pre) as n eqn:En. revert pre En.
  induction n as [n IH] using lt_wf_ind. intros pre En t Ht.
  destruct pre as [| a pre']; [exists ""; reflexivity |].
  set (pre := String a pre') in *.
  assert (Hs : pre ++ t <> "") by discriminate.
  destruct (utf8.DecodeRuneInString (pre ++ t)) as [c w] eqn:E.
  destruct (Decode_width _ _ _ Hs E) as [Hw1 Hw2].
  assert (Hw : (w <= String.length pre)%nat).
  { destruct (Nat.le_gt_cases w (String.length pre)) as [H | H]; [exact H |].
    exfalso.
    assert (Hp : (1 <= String.length pre)%nat) by (simpl; lia).
    pose proof (Decode_continuation _ _ _ (String.length pre) Hs E
                  (conj Hp H)) as Hc.
    rewrite byte_at_app_r in Hc.
    apply Ht; [| exact Hc].
    intros ->. rewrite string_length_app in Hw2.
    change (String.length "") with 0%nat in Hw2. lia. }
  rewrite (Map_step _ c w Hs E), drop_app by exact Hw.
  destruct (IH (String.length (drop w pre))
              ltac:(rewrite length_drop; lia) (drop w pre) eq_refl t Ht)
    as [x Hx].
  exists (written (mapping c) ++ x). now rewrite Hx, string_app_assoc.
Qed.

(** What is written at the start of the output and is ASCII is written
    for a part of the string at its start. *)
Lemma Map_prefix (s : string) :
  forall pat b : string,
  strings.isASCII pat = true ->
  strings.Map mapping s = pat ++ b ->
  exists mid post, s = mid ++ post /\ strings.Map mapping mid = pat.
Proof.
  remember (String.length s) as n eqn:En. revert s En.
  induction n as [n IH] using lt_wf_ind. intros s En pat b Hp H.
  destruct pat as [| p pat]; [exists "", s; auto |].
  destruct s as [| a s']; [discriminate H |].
  set (s := String a s') in *.
  assert (Hs : s <> "") by discriminate.
  destruct (utf8.DecodeRuneInString s) as [c w] eqn:E.
  destruct (Decode_width _ _ _ Hs E) as [Hw1 Hw2].
  rewrite (Map_step s c w Hs E) in H.
  assert (Hstep : forall mid',
            strings.isASCII (written (mapping c)) = true ->
            strings.Map mapping (take w s ++ mid') =
              written (mapping c) ++ strings.Map mapping mid').
  { intros mid' Ha.
    pose proof (Decode_stable s mid' c w Hs E (written_ascii_valid c w Ha)) as E'.
    assert (Hs' : take w s ++ mid' <> "").
    { destruct w as [| w']; [lia |]. discriminate. }
    rewrite (Map_step _ c w Hs' E').
    now rewrite drop_take_app. }
  simpl in Hp. rewrite andb_true_iff, Z.ltb_lt in Hp. destruct Hp as [Hp1 Hp2].
  destruct (written_class (mapping c)) as [Hw | [[x [Hw Hx]] | [Hne Hh]]].
  - rewrite Hw in H. cbn [append] in H.
    destruct (IH (String.length (drop w s)) ltac:(rewrite length_drop; lia)
                (drop w s) eq_refl (String p pat) b) as [mid' [post [Es Em]]].
    + simpl. now rewrite andb_true_iff, Z.ltb_lt.
    + exact H.
    + exists (take w s ++ mid'), post. split.
      * now rewrite string_app_assoc, <- Es, take_drop.
      * rewrite Hstep by (rewrite Hw; reflexivity). now rewrite Hw.
  - rewrite Hw in H. cbn [append] in H. injection H as -> H.
    destruct (IH (String.length (drop w s)) ltac:(rewrite length_drop; lia)
                (drop w s) eq_refl pat b Hp2 H) as [mid' [post [Es Em]]].
    exists (take w s ++ mid'), post. split.
    + now rewrite string_app_assoc, <- Es, take_drop.
    + rewrite Hstep.
      * now rewrite Hw, Em.
      * rewrite Hw. simpl. now rewrite andb_true_iff, Z.ltb_lt.
  - exfalso. destruct (written (mapping c)) as [| y o]; [congruence |].
    cbn [append] in H. injection H as -> _.
    simpl in Hh. rewrite andb_true_iff, Z.leb_le in Hh. lia.
Qed.

(** What is written anywhere in the output and is ASCII is written for a
    part of the string. *)
Lemma Map_contains (s : string) :
  forall a pat b : string,
  strings.isASCII pat = true ->
  strings.Map mapping s = a ++ pat ++ b ->
  exists pre mid post, s = pre ++ mid ++ post /\ strings.Map mapping mid = pat.
Proof.
  remember (String.length s) as n eqn:En. revert s En.
  induction n as [n IH] using lt_wf_ind. intros s En a pat b Hp H.
  destruct a as [| x a].
  { destruct (Map_prefix s pat b Hp H) as [mid [post [E Hm]]].
    exists "", mid, post. auto. }
  destruct pat as [| p pat]; [exists s, "", ""; split;
    [now rewrite string_app_nil_r | reflexivity] |].
  destruct s as [| a0 s']; [discriminate H |].
  set (s := String a0 s') in *.
  assert (Hs : s <> "") by discriminate.
  destruct (utf8.DecodeRuneInString s) as [c w] eqn:E.
  destruct (Decode_width _ _ _ Hs E) as [Hw1 Hw2].
  rewrite (Map_step s c w Hs E) in H.
  assert (Hrest : forall l, strings.Map mapping (drop w s) = l ++ String p pat ++ b ->
            exists pre mid post,
              s = pre ++ mid ++ post /\ strings.Map mapping mid = String p pat).
  { intros l Hl.
    destruct (IH (String.length (drop w s)) ltac:(rewrite length_drop; lia)
                (drop w s) eq_refl l (String p pat) b Hp Hl)
      as [pre [mid [post [Es Em]]]].
    exists (take w s ++ pre), mid, post. split; [| exact Em].
    now rewrite string_app_assoc, <- Es, take_drop. }
  destruct (string_app_eq_app _ _ _ _ H) as [l [[E1 E2] | [E1 E2]]].
  - (* the text before the pattern ends inside what is written for [c] *)
    destruct l as [| y l].
    + apply (Hrest ""). symmetry. exact E2.
    + exfalso. cbn [append] in E2. injection E2 as <- _.
      simpl in Hp. rewrite andb_true_iff, Z.ltb_lt in Hp.
      destruct (written_class (mapping c)) as [Hw | [[z [Hw Hz]] | [Hne Hh]]];
        rewrite Hw in E1 || idtac.
      * discriminate E1.
      * destruct a; discriminate E1.
      * rewrite E1 in Hh. clear - Hh Hp.
        assert (Hy : all_high (String x a ++ String p l) = true ->
                     utf8.RuneSelf <= byte_val p).
        { generalize (String x a). intros u. induction u as [| q u IHu]; simpl;
            rewrite andb_true_iff, Z.leb_le; tauto. }
        specialize (Hy Hh). lia.
  - apply (Hrest l). exact E2.
Qed.

End Map.

(** *** [strings.ToLower] *)

Lemma ToLower_RuneError : unicode.ToLower utf8.RuneError = utf8.RuneError.
Proof.
  unfold unicode.ToLower.
  change (utf8.RuneError <=? unicode.MaxASCII) with false. cbv iota.
  apply unicode.ReplacementChar_LowerCase.
Qed.

Lemma lowerASCII_no_upper (s : string) :
  strings.hasUpper s = false -> strings.lowerASCII s = s.
Proof.
  induction s as [| c s IH]; [reflexivity |]. simpl.
  rewrite orb_false_iff. intros [-> H]. now rewrite IH.
Qed.

(** The loop over the bytes of an ASCII string writes what the loop over
    its runes writes. *)
Lemma Map_ascii (s : string) :
  strings.isASCII s = true ->
  strings.Map unicode.ToLower s = strings.lowerASCII s.
Proof.
  induction s as [| a s IH]; [reflexivity |].
  cbn [strings.isASCII strings.lowerASCII].
  rewrite andb_true_iff, Z.ltb_lt. intros [Ha Hs].
  rewrite (Map_step _ (String a s) _ _ ltac:(discriminate) (Decode_ascii a s Ha)).
  cbn [drop]. rewrite (IH Hs).
  pose proof (byte_val_range a) as Hr. unfold utf8.RuneSelf in Ha.
  unfold unicode.ToLower, unicode.MaxASCII, written.
  destruct (Z.leb_spec (byte_val a) 127) as [_ | ?]; [| lia].
  destruct ((65 <=? byte_val a) && (byte_val a <=? 90)) eqn:Eu.
  - rewrite andb_true_iff, !Z.leb_le in Eu.
    destruct (Z.leb_spec 0 (byte_val a + (97 - 65))) as [_ | ?]; [| lia].
    rewrite AppendRune_ascii by (unfold utf8.RuneSelf; lia). reflexivity.
  - destruct (Z.leb_spec 0 (byte_val a)) as [_ | ?]; [| lia].
    rewrite AppendRune_ascii by (unfold utf8.RuneSelf; lia).
    now rewrite chr_byte_val.
Qed.

Lemma ToLower_Map (s : string) :
  strings.ToLower s = strings.Map unicode.ToLower s.
Proof.
  unfold strings.ToLower. destruct (strings.isASCII s) eqn:Ea; [| reflexivity].
  rewrite (Map_ascii s Ea).
  destruct (strings.hasUpper s) eqn:Eu; [reflexivity |].
  symmetry. now apply lowerASCII_no_upper.
Qed.

Lemma Contains_ToLower (msg pat : string) :
  strings.isASCII pat = true ->
  (strings.Contains (strings.ToLower msg) pat = true <-> contains_fold msg pat).
Proof.
  intros Hp. rewrite Contains_spec. unfold contains_fold. split.
  - intros [a [b H]]. rewrite ToLower_Map in H.
    destruct (Map_contains _ ToLower_RuneError msg a pat b Hp H)
      as [pre [mid [post [E Hm]]]].
    exists pre, mid, post. now rewrite ToLower_Map.
  - intros [pre [mid [post [E Hm]]]]. rewrite ToLower_Map in Hm.
    rewrite ToLower_Map, E.
    destruct mid as [| c mid'].
    { subst pat. exists (strings.Map unicode.ToLower (pre ++ "" ++ post)), "".
      now rewrite string_app_nil_r. }
    set (mid := String c mid') in *.
    assert (Ha : strings.isASCII (strings.Map unicode.ToLower mid) = true)
      by now rewrite Hm.
    destruct (Map_resync unicode.ToLower pre (mid ++ post)) as [x Hx].
    { intros _. now apply (Map_ascii_first _ ToLower_RuneError mid). }
    exists x, (strings.Map unicode.ToLower post).
    now rewrite Hx, (Map_app_ascii _ ToLower_RuneError mid post Ha), Hm.
Qed.


Lemma auth_code_spec (code : Z) : auth_code code = true <-> recognized_code code.
Proof.
  unfold auth_code, recognized_code, ER_ACCESS_DENIED_ERROR,
    ER_DBACCESS_DENIED_ERROR, ER_HOST_NOT_ALLOWED, ER_ACCESS_DENIED_NO_PASSWORD,
    ER_ACCOUNT_HAS_BEEN_LOCKED.
  rewrite !orb_true_iff, !Z.eqb_eq. tauto.
Qed.

(** A protocol error wraps nothing, so the one [errors.As] finds is the
    one at the end of the chain. *)
Lemma As_wraps (e : error) (m : MyError) :
  errors.As e = Some m <-> wraps e (ofMyError m).
Proof.
  split.
  - induction e as [s | m' | msg e IH]; simpl; intros H.
    + discriminate.
    + injection H as ->. constructor.
    + constructor. auto.
  - intros H. remember (ofMyError m) as t eqn:Et.
    induction H as [e | msg e t H IH]; subst; simpl; auto.
Qed.

Lemma isAuthenticationError_spec (e : error) :
  isAuthenticationError (Some e) = true <-> auth_denial e.
Proof.
  unfold isAuthenticationError, auth_denial.
  destruct (errors.As e) as [m |] eqn:HAs.
  - destruct (auth_code (Code m)) eqn:Hc.
    + split; [| reflexivity]. intros _. left. exists m. split.
      * now apply As_wraps.
      * now apply auth_code_spec.
    + rewrite orb_true_iff, !Contains_ToLower by reflexivity. split; [tauto |].
      intros [[m' [Hw Hr]] | H]; [| exact H].
      apply As_wraps in Hw. rewrite HAs in Hw. injection Hw as ->.
      apply auth_code_spec in Hr. congruence.
  - rewrite orb_true_iff, !Contains_ToLower by reflexivity. split; [tauto |].
    intros [[m' [Hw Hr]] | H]; [| exact H].
    apply As_wraps in Hw. congruence.
Qed.

Lemma wrapError_neq (e : error) (msg : string) : wrapError msg e <> e.
Proof.
  revert msg. induction e as [s | m | msg' e IH]; intros msg H;
    try discriminate.
  injection H as _ H. exact (IH _ H).
Qed.

(** ** The circuit breaker *)

(** One classified failure: the counter goes up by one, and the call
    returns the tripped error when the new count reaches a maximum that is
    set, the error itself otherwise. *)
Lemma handleAuthError_failure (this : GoMySQLReader) (e : error) (context : string) :
  isAuthenticationError (Some e) = true ->
  let count := GoInt.wrap (authFailureCount this + 1) in
  let max := MaxAuthFailures (migrationContext this) in
  handleAuthError this (Some e) context =
    (set_authFailureCount this count,
     Some (if (0 <? max) && (max <=? count)
           then tripped count max context e else e)).
Proof.
  intros H. unfold handleAuthError. rewrite H. simpl.
  destruct ((0 <? _) && _); reflexivity.
Qed.

(** A failure that is not classified leaves the reader as it is. *)
Lemma handleAuthError_other (this : GoMySQLReader) (e : error) (context : string) :
  isAuthenticationError (Some e) = false ->
  handleAuthError this (Some e) context = (this, Some e).
Proof. intros H. unfold handleAuthError. now rewrite H. Qed.

(** The counter is a count: from zero on it is never negative, as long as
    it has room to grow. *)
Lemma authFailureCount_nonneg (this : GoMySQLReader) (err : option error)
    (context : string) :
  0 <= authFailureCount this < GoInt.max_int ->
  0 <= authFailureCount (fst (handleAuthError this err context)).
Proof.
  intros H. destruct err as [e |].
  - destruct (isAuthenticationError (Some e)) eqn:Ha.
    + rewrite (handleAuthError_failure _ _ _ Ha). simpl.
      rewrite wrap_in_range; [lia |].
      unfold GoInt.in_range, GoInt.min_int, GoInt.max_int in *. lia.
    + rewrite (handleAuthError_other _ _ _ Ha). simpl. lia.
  - simpl. destruct (0 <? authFailureCount this); simpl; lia.
Qed.

Lemma handleAuthErrors_nth (errs : list error) :
  forall (this : GoMySQLReader) (context : string) (k : nat) (e : error),
  Forall (fun e => isAuthenticationError (Some e) = true) errs ->
  nth_error errs k = Some e ->
  0 <= authFailureCount this ->
  authFailureCount this + Z.of_nat k + 1 <= GoInt.max_int ->
  nth_error (snd (handleAuthErrors this errs context)) k =
    Some (Some (if (0 <? MaxAuthFailures (migrationContext this)) &&
                   (MaxAuthFailures (migrationContext this) <=?
                      authFailureCount this + Z.of_nat k + 1)
                then tripped (authFailureCount this + Z.of_nat k + 1)
                       (MaxAuthFailures (migrationContext this)) context e
                else e)).
Proof.
  induction errs as [| e0 errs IH]; intros this context k e Hall Hk H0 Hmax.
  - destruct k; discriminate.
  - inversion Hall as [| ? ? Ha Hall']; subst.
    cbn [handleAuthErrors]. rewrite (handleAuthError_failure _ _ _ Ha).
    assert (Hw : GoInt.wrap (authFailureCount this + 1) = authFailureCount this + 1).
    { apply wrap_in_range.
      unfold GoInt.in_range, GoInt.min_int, GoInt.max_int in *. lia. }
    rewrite Hw.
    destruct (handleAuthErrors _ errs context) as [this2 rs] eqn:Hrs.
    destruct k as [| k]; simpl in *.
    + injection Hk as ->. now rewrite Z.add_0_r.
    + specialize (IH (set_authFailureCount this (authFailureCount this + 1))
                     context k e Hall' Hk).
      rewrite Hrs in IH. simpl in IH. rewrite IH by lia.
      replace (authFailureCount this + 1 + Z.of_nat k + 1)
        with (authFailureCount this + Z.pos (Pos.of_succ_nat k) + 1) by lia.
      reflexivity.
Qed.

(** With no maximum set, no count trips the breaker. *)
Lemma handleAuthErrors_unlimited (errs : list error) :
  forall (this : GoMySQLReader) (context : string) (k : nat) (e : error),
  MaxAuthFailures (migrationContext this) <= 0 ->
  nth_error errs k = Some e ->
  nth_error (snd (handleAuthErrors this errs context)) k = Some (Some e).
Proof.
  induction errs as [| e0 errs IH]; intros this context k e Hmax Hk.
  - destruct k; discriminate.
  - cbn [handleAuthErrors].
    destruct (handleAuthError this (Some e0) context) as [this1 r] eqn:H1.
    assert (Hr : r = Some e0 /\ migrationContext this1 = migrationContext this).
    { destruct (isAuthenticationError (Some e0)) eqn:Ha.
      - rewrite (handleAuthError_failure _ _ _ Ha) in H1.
        destruct (Z.ltb_spec 0 (MaxAuthFailures (migrationContext this)));
          [lia |].
        simpl in H1. injection H1 as <- <-. auto.
      - rewrite (handleAuthError_other _ _ _ Ha) in H1.
        injection H1 as <- <-. auto. }
    destruct Hr as [-> Hm].
    destruct (handleAuthErrors this1 errs context) as [this2 rs] eqn:Hrs.
    destruct k as [| k]; simpl in *.
    + congruence.
    + specialize (IH this1 context k e). rewrite Hrs in IH. simpl in IH.
      apply IH; [rewrite Hm; exact Hmax | exact Hk].
Qed.

(** C1.  Let the maximum be [N] and the counter be 0, and let the caller
    hand a run of classified authentication failures to [handleAuthError].
    With [N = 0] every call returns the error it was given.  With [N > 0]
    the call for failure number [n] (an [int]) returns the error it was
    given when [n < N], and from [n = N] on it returns the tripped error,
    which is another value than the error given, carries [n] and [N] in
    its message, and wraps the error given. *)
Theorem handleAuthError_trips_at_max
    (this : GoMySQLReader) (errs : list error) (context : string)
    (k : nat) (e : error) :
  authFailureCount this = 0 ->
  GoInt.in_range (MaxAuthFailures (migrationContext this)) ->
  Forall (fun e => isAuthenticationError (Some e) = true) errs ->
  nth_error errs k = Some e ->
  (MaxAuthFailures (migrationContext this) = 0 ->
     nth_error (snd (handleAuthErrors this errs context)) k = Some (Some e)) /\
  (0 < MaxAuthFailures (migrationContext this) ->
   Z.of_nat k + 1 < MaxAuthFailures (migrationContext this) ->
     nth_error (snd (handleAuthErrors this errs context)) k = Some (Some e)) /\
  (0 < MaxAuthFailures (migrationContext this) ->
   MaxAuthFailures (migrationContext this) <= Z.of_nat k + 1 <= GoInt.max_int ->
     nth_error (snd (handleAuthErrors this errs context)) k =
       Some (Some (tripped (Z.of_nat k + 1)
                     (MaxAuthFailures (migrationContext this)) context e))) /\
  tripped (Z.of_nat k + 1) (MaxAuthFailures (migrationContext this)) context e <> e /\
  errors.Unwrap
    (tripped (Z.of_nat k + 1) (MaxAuthFailures (migrationContext this)) context e)
    = Some e /\
  errors.Error
    (tripped (Z.of_nat k + 1) (MaxAuthFailures (migrationContext this)) context e)
    = "authentication failed " ++ fmt.d (Z.of_nat k + 1) ++ " times (max: " ++
      fmt.d (MaxAuthFailures (migrationContext this)) ++ ") during " ++ context ++
      ", aborting to prevent firewall blocking: " ++ errors.Error e.
Proof.
  intros H0 HN Hall Hk.
  pose proof (handleAuthErrors_nth errs this context k e Hall Hk) as Hnth.
  rewrite H0 in Hnth. simpl in Hnth.
  unfold GoInt.in_range in HN.
  repeat split.
  - intros Hz. apply handleAuthErrors_unlimited; [lia | exact Hk].
  - intros Hpos Hlt. rewrite Hnth by lia.
    destruct (Z.ltb_spec 0 (MaxAuthFailures (migrationContext this))); [| lia].
    destruct (Z.leb_spec (MaxAuthFailures (migrationContext this)) (Z.of_nat k + 1));
      [lia | reflexivity].
  - intros Hpos [Hge Hle]. rewrite Hnth by lia.
    destruct (Z.ltb_spec 0 (MaxAuthFailures (migrationContext this))); [| lia].
    destruct (Z.leb_spec (MaxAuthFailures (migrationContext this)) (Z.of_nat k + 1));
      [reflexivity | lia].
  - apply wrapError_neq.
  - unfold tripped, errors.Errorf_w. cbn [errors.Error].
    now rewrite !string_app_assoc.
Qed.

(** C4.  [isAuthenticationError] answers true at an error that is, or
    wraps at some depth, a protocol error with a code of the recognized
    set 1044, 1045, 1130, 1698, 3118, and at an error whose message
    contains access denied or authentication failed up to case.  At every
    other error it answers false, and [handleAuthError] returns that error
    as it is and leaves the reader, its failure counter included, as it
    was. *)
Theorem isAuthenticationError_classifies (e : error) :
  (auth_denial e -> isAuthenticationError (Some e) = true) /\
  (~ auth_denial e ->
     isAuthenticationError (Some e) = false /\
     forall (this : GoMySQLReader) (context : string),
       handleAuthError this (Some e) context = (this, Some e) /\
       authFailureCount (fst (handleAuthError this (Some e) context)) =
         authFailureCount this).
Proof.
  split.
  - apply isAuthenticationError_spec.
  - intros Hn.
    assert (Hf : isAuthenticationError (Some e) = false).
    { destruct (isAuthenticationError (Some e)) eqn:H; [| reflexivity].
      apply isAuthenticationError_spec in H. contradiction. }
    split; [exact Hf |]. intros this context.
    now rewrite (handleAuthError_other _ _ _ Hf).
Qed.

(** C6.  Whatever the count of failures before, at or above the maximum
    too, [handleAuthError] at [nil] leaves the counter at 0 and the rest
    of the reader as it was, and returns [nil]. *)
Theorem handleAuthError_nil_resets (this : GoMySQLReader) (context : string) :
  0 <= authFailureCount this ->
  handleAuthError this None context = (set_authFailureCount this 0, None) /\
  authFailureCount (fst (handleAuthError this None context)) = 0 /\
  snd (handleAuthError this None context) = None.
Proof.
  intros H. unfold handleAuthError.
  destruct (Z.ltb_spec 0 (authFailureCount this)) as [Hpos | Hz]; simpl.
  - auto.
  - assert (E : authFailureCount this = 0) by lia.
    destruct this as [mc st cur hint n]. simpl in *. subst n. auto.
Qed.

(** C10.  [ConnectBinlogStreamer] at a coordinate that is not empty asks
    the client to start at that coordinate, and when the client fails the
    call returns an error and leaves the coordinate supplied as the
    current coordinate of the reader, whatever it was before. *)
Theorem ConnectBinlogStreamer_keeps_coordinates
    (this : GoMySQLReader) (coordinates : BinlogCoordinates)
    (StartSync : Position -> option BinlogStreamer * option error)
    (err : error) :
  IsEmpty coordinates = false ->
  snd (StartSync (mkPosition (LogFile coordinates)
                    (GoInt.uint32 (LogPos coordinates)))) = Some err ->
  currentCoordinates (fst (ConnectBinlogStreamer this coordinates StartSync))
    = coordinates /\
  snd (ConnectBinlogStreamer this coordinates StartSync) <> None.
Proof.
  intros Hne Herr. unfold ConnectBinlogStreamer. rewrite Hne.
  cbn [set_currentCoordinates currentCoordinates]. rewrite Herr.
  destruct (isAuthenticationError (Some err)) eqn:Ha.
  - rewrite (handleAuthError_failure _ _ _ Ha). simpl.
    split; [reflexivity |]. destruct (_ && _); discriminate.
  - rewrite (handleAuthError_other _ _ _ Ha). simpl.
    split; [reflexivity | discriminate].
Qed.

(** ** The rows of an event *)

Lemma even_index (i : nat) :
  Nat.even i = true ->
  (i mod 2 =? 1)%nat = false /\ (S i mod 2 =? 1)%nat = true.
Proof.
  intros H. apply Nat.even_spec in H. destruct H as [k ->].
  assert (H0 : ((2 * k) mod 2 = 0)%nat).
  { rewrite Nat.mul_comm. apply Nat.Div0.mod_mul. }
  assert (H1 : (S (2 * k) mod 2 = 1)%nat).
  { replace (S (2 * k)) with (1 + k * 2)%nat by lia.
    rewrite Nat.Div0.mod_add. reflexivity. }
  rewrite H0, H1. auto.
Qed.

Lemma length_rows_of_pairs (pairs : list (list V * list V)) :
  List.length (rows_of_pairs pairs) = (2 * List.length pairs)%nat.
Proof.
  induction pairs as [| [before after] pairs IH]; simpl; [reflexivity |].
  rewrite IH. lia.
Qed.

Lemma pairs_of_rows_of_pairs (pairs : list (list V * list V)) :
  pairs_of (rows_of_pairs pairs) = pairs.
Proof.
  induction pairs as [| [before after] pairs IH]; simpl; [reflexivity |].
  now rewrite IH.
Qed.

Lemma pairs_of_one_more (pairs : list (list V * list V)) (last : list V) :
  pairs_of (rows_of_pairs pairs ++ [last]) = pairs.
Proof.
  induction pairs as [| [before after] pairs IH]; simpl; [reflexivity |].
  now rewrite IH.
Qed.

(** A list of rows of even length is a list of pairs, and one of odd
    length is a list of pairs and one row more. *)
Lemma rows_pairs_or_one_more (rows : list (list V)) :
  exists pairs,
    (Nat.even (List.length rows) = true /\ rows = rows_of_pairs pairs) \/
    (Nat.even (List.length rows) = false /\
     exists last, rows = (rows_of_pairs pairs ++ [last])%list).
Proof.
  assert (H : forall n rows, (List.length rows <= n)%nat ->
            exists pairs,
              (Nat.even (List.length rows) = true /\ rows = rows_of_pairs pairs) \/
              (Nat.even (List.length rows) = false /\
               exists last, rows = (rows_of_pairs pairs ++ [last])%list)).
  { clear rows. induction n as [| n IH]; intros rows Hn.
    - destruct rows; [| simpl in Hn; lia]. exists []. left. auto.
    - destruct rows as [| before [| after rows]].
      + exists []. left. auto.
      + exists []. right. split; [reflexivity |]. exists before. reflexivity.
      + destruct (IH rows) as [pairs [[He E] | [Ho [last E]]]].
        * simpl in Hn. lia.
        * exists ((before, after) :: pairs). left. simpl in *. now rewrite E at 2.
        * exists ((before, after) :: pairs). right. simpl in *.
          split; [exact Ho |]. exists last. now rewrite E at 1. }
  apply (H (List.length rows)). lia.
Qed.

(** The loop over an insert or a delete event sends one entry for every
    row. *)
Lemma rows_loop_insert (this : GoMySQLReader) (rowsEvent : RowsEvent)
    (rest : list (list V)) (i : nat) :
  rows_loop this rowsEvent InsertDML i rest =
    (map (insert_entry (currentCoordinates this) (Table rowsEvent)) rest, None).
Proof.
  revert i. induction rest as [| row rest IH]; intros i; [reflexivity |].
  cbn [rows_loop EventDML_eqb andb entry_of_row]. now rewrite IH.
Qed.

Lemma rows_loop_delete (this : GoMySQLReader) (rowsEvent : RowsEvent)
    (rest : list (list V)) (i : nat) :
  rows_loop this rowsEvent DeleteDML i rest =
    (map (delete_entry (currentCoordinates this) (Table rowsEvent)) rest, None).
Proof.
  revert i. induction rest as [| row rest IH]; intros i; [reflexivity |].
  cbn [rows_loop EventDML_eqb andb entry_of_row]. now rewrite IH.
Qed.

(** The loop over an update event, at an even index, with pairs of rows
    ahead: one entry for every pair, then the loop goes on behind them. *)
Lemma rows_loop_pairs (this : GoMySQLReader) (rowsEvent : RowsEvent)
    (pairs : list (list V * list V)) :
  forall (pre tail : list (list V)),
  Rows rowsEvent = (pre ++ rows_of_pairs pairs ++ tail)%list ->
  Nat.even (List.length pre) = true ->
  rows_loop this rowsEvent UpdateDML (List.length pre) (rows_of_pairs pairs ++ tail) =
    (map (update_entry (currentCoordinates this) (Table rowsEvent)) pairs ++
       fst (rows_loop this rowsEvent UpdateDML
              (List.length pre + 2 * List.length pairs) tail),
     snd (rows_loop this rowsEvent UpdateDML
            (List.length pre + 2 * List.length pairs) tail))%list.
Proof.
  induction pairs as [| [before after] pairs IH]; intros pre tail HR Hev.
  - simpl. rewrite Nat.add_0_r. now destruct (rows_loop _ _ _ _ tail).
  - destruct (even_index _ Hev) as [H0 H1].
    cbn [rows_of_pairs app rows_loop EventDML_eqb andb]. rewrite H0, H1.
    cbn [entry_of_row].
    assert (Hn : nth_error (Rows rowsEvent) (List.length pre + 1) = Some after).
    { rewrite HR. rewrite nth_error_app2 by lia.
      replace (List.length pre + 1 - List.length pre)%nat with 1%nat by lia.
      reflexivity. }
    rewrite Hn.
    pose proof (IH (pre ++ [before; after])%list tail) as IH'.
    rewrite length_app in IH'.
    change (List.length [before; after]) with 2%nat in IH'.
    replace (List.length pre + 2)%nat with (S (S (List.length pre))) in IH' by lia.
    rewrite IH'.
    + replace (List.length pre + 2 * List.length ((before, after) :: pairs))%nat
        with (S (S (List.length pre)) + 2 * List.length pairs)%nat
        by (simpl; lia).
      reflexivity.
    + rewrite HR, <- app_assoc. reflexivity.
    + exact Hev.
Qed.

(** An event has passed both guards of [handleRowsEvent]. *)
Lemma handleRowsEvent_decodes (this : GoMySQLReader) (ev : BinlogEvent)
    (rowsEvent : RowsEvent) :
  IsLogPosOverflowBeyond4Bytes (currentCoordinates this)
    (LastAppliedRowsEventHint this) = false ->
  coord_lt (LastAppliedRowsEventHint this) (currentCoordinates this) ->
  handleRowsEvent this ev rowsEvent =
    if EventDML_eqb (dml_of ev) NotDML
    then mkHandled this [] (Return (Some (unknown_dml_error ev)))
    else
      match rows_loop this rowsEvent (dml_of ev) 0 (Rows rowsEvent) with
      | (entries, Some p) => mkHandled this entries (Panic p)
      | (entries, None) =>
          mkHandled (set_LastAppliedRowsEventHint this (currentCoordinates this))
            entries (Return None)
      end.
Proof.
  intros Hov Hlt. unfold handleRowsEvent. rewrite Hov.
  apply SmallerThan_spec in Hlt.
  rewrite SmallerThanOrEquals_negb, Hlt. reflexivity.
Qed.

Lemma not_lt_le (a b : BinlogCoordinates) : ~ coord_lt b a <-> coord_le a b.
Proof.
  rewrite <- SmallerThanOrEquals_spec, <- SmallerThan_spec,
    SmallerThanOrEquals_negb.
  destruct (SmallerThan b a); simpl; split; congruence.
Qed.

(** An event at or before the hint: the overflow check decides alone. *)
Lemma handleRowsEvent_applied (this : GoMySQLReader) (ev : BinlogEvent)
    (rowsEvent : RowsEvent) :
  coord_le (currentCoordinates this) (LastAppliedRowsEventHint this) ->
  handleRowsEvent this ev rowsEvent =
    if IsLogPosOverflowBeyond4Bytes (currentCoordinates this)
         (LastAppliedRowsEventHint this)
    then mkHandled this [] (Return (Some (overflow_error this)))
    else mkHandled this [] (Return None).
Proof.
  intros Hle. apply SmallerThanOrEquals_spec in Hle.
  unfold handleRowsEvent. now rewrite Hle.
Qed.

Lemma rows_loop_pairs_from_start (this : GoMySQLReader) (rowsEvent : RowsEvent)
    (pairs : list (list V * list V)) (tail : list (list V)) :
  Rows rowsEvent = (rows_of_pairs pairs ++ tail)%list ->
  rows_loop this rowsEvent UpdateDML 0 (Rows rowsEvent) =
    (map (update_entry (currentCoordinates this) (Table rowsEvent)) pairs ++
       fst (rows_loop this rowsEvent UpdateDML (2 * List.length pairs) tail),
     snd (rows_loop this rowsEvent UpdateDML (2 * List.length pairs) tail))%list.
Proof.
  intros E. rewrite E at 1.
  exact (rows_loop_pairs this rowsEvent pairs [] tail E eq_refl).
Qed.

(** At an even index with one row left, the loop panics at the row that
    would follow. *)
Lemma rows_loop_one_more (this : GoMySQLReader) (rowsEvent : RowsEvent)
    (pairs : list (list V * list V)) (last : list V) :
  Rows rowsEvent = (rows_of_pairs pairs ++ [last])%list ->
  rows_loop this rowsEvent UpdateDML (2 * List.length pairs) [last] =
    ([], Some (index_out_of_range (List.length (Rows rowsEvent))
                 (List.length (Rows rowsEvent)))).
Proof.
  intros E.
  assert (Hev : Nat.even (2 * List.length pairs) = true).
  { apply Nat.even_spec. now exists (List.length pairs). }
  destruct (even_index _ Hev) as [H0 _].
  assert (Hlen : List.length (Rows rowsEvent) = (2 * List.length pairs + 1)%nat).
  { rewrite E, length_app, length_rows_of_pairs. simpl. lia. }
  cbn [rows_loop EventDML_eqb andb entry_of_row]. rewrite H0.
  rewrite (proj2 (nth_error_None _ _)) by lia.
  now rewrite Hlen.
Qed.

(** The loop over an update event ends without a panic only on pairs, and
    has then sent one entry for every pair. *)
Lemma rows_loop_update_done (this : GoMySQLReader) (rowsEvent : RowsEvent)
    (entries : list BinlogEntry) :
  rows_loop this rowsEvent UpdateDML 0 (Rows rowsEvent) = (entries, None) ->
  exists pairs,
    Rows rowsEvent = rows_of_pairs pairs /\
    entries = map (update_entry (currentCoordinates this) (Table rowsEvent)) pairs.
Proof.
  intros H.
  destruct (rows_pairs_or_one_more (Rows rowsEvent))
    as [pairs [[_ E] | [_ [last E]]]].
  - exists pairs. split; [exact E |].
    rewrite (rows_loop_pairs_from_start this rowsEvent pairs []) in H
      by (now rewrite app_nil_r).
    simpl in H. rewrite app_nil_r in H. congruence.
  - exfalso.
    rewrite (rows_loop_pairs_from_start this rowsEvent pairs [last] E) in H.
    rewrite (rows_loop_one_more this rowsEvent pairs last E) in H.
    simpl in H. discriminate.
Qed.

(** The hint moves all or nothing: a call leaves the reader as it was, or
    it has sent every row of the event, returns [nil] and has set the hint
    to the coordinate of the event. *)
Lemma handleRowsEvent_all_or_nothing (this : GoMySQLReader) (ev : BinlogEvent)
    (rowsEvent : RowsEvent) :
  reader_after (handleRowsEvent this ev rowsEvent) = this \/
  (ended (handleRowsEvent this ev rowsEvent) = Return None /\
   reader_after (handleRowsEvent this ev rowsEvent) =
     set_LastAppliedRowsEventHint this (currentCoordinates this) /\
   all_rows_sent this rowsEvent (dml_of ev)
     (sent (handleRowsEvent this ev rowsEvent))).
Proof.
  unfold handleRowsEvent. fold (dml_of ev).
  destruct (IsLogPosOverflowBeyond4Bytes _ _); [left; reflexivity |].
  destruct (SmallerThanOrEquals _ _); [left; reflexivity |].
  destruct (EventDML_eqb (dml_of ev) NotDML) eqn:Hd; [left; reflexivity |].
  destruct (rows_loop this rowsEvent (dml_of ev) 0 (Rows rowsEvent))
    as [entries [p |]] eqn:HL; [left; reflexivity |].
  right. simpl. repeat split.
  destruct (dml_of ev) eqn:E; simpl in *; try discriminate.
  - rewrite rows_loop_insert in HL. injection HL as <-. apply length_map.
  - now apply rows_loop_update_done.
  - rewrite rows_loop_delete in HL. injection HL as <-. apply length_map.
Qed.

(** ** The guards of [handleRowsEvent] *)

(** C8.  When the current coordinate and the hint are in the overflow
    relationship of 4 bytes, [handleRowsEvent] returns the overflow error
    whatever the event is and however the coordinates compare: it sends
    no entry and leaves the reader as it was, so that the next call fails
    the same way. *)
Theorem handleRowsEvent_overflow_fails (this : GoMySQLReader)
    (ev : BinlogEvent) (rowsEvent : RowsEvent) :
  IsLogPosOverflowBeyond4Bytes (currentCoordinates this)
    (LastAppliedRowsEventHint this) = true ->
  handleRowsEvent this ev rowsEvent =
    mkHandled this [] (Return (Some (overflow_error this))) /\
  forall (ev' : BinlogEvent) (rowsEvent' : RowsEvent),
    handleRowsEvent (reader_after (handleRowsEvent this ev rowsEvent)) ev' rowsEvent' =
      mkHandled this [] (Return (Some (overflow_error this))).
Proof.
  intros H. unfold handleRowsEvent. rewrite H. cbn [reader_after].
  rewrite H. auto.
Qed.

(** C9.  At an event whose coordinate is not strictly greater than the
    hint the kind of the event is not looked at: when the overflow check
    passes the call returns [nil], sends nothing and leaves the reader as
    it was, also when [ToEventDML] does not know the event; when the
    overflow check fails, it returns the overflow error.  It never returns
    the error of an unknown kind. *)
Theorem handleRowsEvent_skip_precedes_classification (this : GoMySQLReader)
    (ev : BinlogEvent) (rowsEvent : RowsEvent) :
  ~ coord_lt (LastAppliedRowsEventHint this) (currentCoordinates this) ->
  (IsLogPosOverflowBeyond4Bytes (currentCoordinates this)
     (LastAppliedRowsEventHint this) = false ->
   handleRowsEvent this ev rowsEvent = mkHandled this [] (Return None)) /\
  (IsLogPosOverflowBeyond4Bytes (currentCoordinates this)
     (LastAppliedRowsEventHint this) = true ->
   handleRowsEvent this ev rowsEvent =
     mkHandled this [] (Return (Some (overflow_error this)))) /\
  ended (handleRowsEvent this ev rowsEvent) <> Return (Some (unknown_dml_error ev)).
Proof.
  intros Hn. apply not_lt_le in Hn.
  rewrite (handleRowsEvent_applied this ev rowsEvent Hn).
  destruct (IsLogPosOverflowBeyond4Bytes _ _); repeat split; intros; try discriminate.
Qed.

(** C3, amended.  At an event whose coordinate is smaller than or equal
    to the hint, by log file first and by position then,
    [handleRowsEvent] sends no entry and leaves the reader as it was; it
    returns [nil] when the coordinates are not in the overflow
    relationship, and the overflow error when they are. *)
Theorem handleRowsEvent_skips_applied (this : GoMySQLReader)
    (ev : BinlogEvent) (rowsEvent : RowsEvent) :
  coord_le (currentCoordinates this) (LastAppliedRowsEventHint this) ->
  sent (handleRowsEvent this ev rowsEvent) = [] /\
  reader_after (handleRowsEvent this ev rowsEvent) = this /\
  (IsLogPosOverflowBeyond4Bytes (currentCoordinates this)
     (LastAppliedRowsEventHint this) = false ->
   ended (handleRowsEvent this ev rowsEvent) = Return None) /\
  (IsLogPosOverflowBeyond4Bytes (currentCoordinates this)
     (LastAppliedRowsEventHint this) = true ->
   ended (handleRowsEvent this ev rowsEvent) = Return (Some (overflow_error this))).
Proof.
  intros Hle. rewrite (handleRowsEvent_applied this ev rowsEvent Hle).
  destruct (IsLogPosOverflowBeyond4Bytes _ _); simpl; repeat split; auto;
    discriminate.
Qed.

(** ** The rows of an event, decoded *)

(** An update event that holds pairs of rows, and nothing else. *)
Lemma handleRowsEvent_pairs (this : GoMySQLReader)
    (ev : BinlogEvent) (rowsEvent : RowsEvent)
    (pairs : list (list V * list V)) :
  IsLogPosOverflowBeyond4Bytes (currentCoordinates this)
    (LastAppliedRowsEventHint this) = false ->
  coord_lt (LastAppliedRowsEventHint this) (currentCoordinates this) ->
  dml_of ev = UpdateDML ->
  Rows rowsEvent = rows_of_pairs pairs ->
  handleRowsEvent this ev rowsEvent =
    mkHandled
      (set_LastAppliedRowsEventHint this (currentCoordinates this))
      (map (update_entry (currentCoordinates this) (Table rowsEvent)) pairs)
      (Return None).
Proof.
  intros Hov Hlt Hd HR.
  rewrite (handleRowsEvent_decodes this ev rowsEvent Hov Hlt), Hd.
  cbn [EventDML_eqb].
  rewrite (rows_loop_pairs_from_start this rowsEvent pairs [])
    by (now rewrite app_nil_r).
  cbn [rows_loop fst snd]. now rewrite app_nil_r.
Qed.

(** An update event that holds pairs of rows, and one row more. *)
Lemma handleRowsEvent_pairs_one_more (this : GoMySQLReader)
    (ev : BinlogEvent) (rowsEvent : RowsEvent)
    (pairs : list (list V * list V)) (last : list V) :
  IsLogPosOverflowBeyond4Bytes (currentCoordinates this)
    (LastAppliedRowsEventHint this) = false ->
  coord_lt (LastAppliedRowsEventHint this) (currentCoordinates this) ->
  dml_of ev = UpdateDML ->
  Rows rowsEvent = (rows_of_pairs pairs ++ [last])%list ->
  handleRowsEvent this ev rowsEvent =
    mkHandled this
      (map (update_entry (currentCoordinates this) (Table rowsEvent)) pairs)
      (Panic (index_out_of_range (List.length (Rows rowsEvent))
                (List.length (Rows rowsEvent)))).
Proof.
  intros Hov Hlt Hd HR.
  rewrite (handleRowsEvent_decodes this ev rowsEvent Hov Hlt), Hd.
  cbn [EventDML_eqb].
  rewrite (rows_loop_pairs_from_start this rowsEvent pairs [last] HR).
  rewrite (rows_loop_one_more this rowsEvent pairs last HR).
  cbn [fst snd]. now rewrite app_nil_r.
Qed.

(** C5, amended.  At an update event that passes the overflow check, has
    a coordinate strictly greater than the hint and holds an even number
    of rows before1, after1, before2, after2 and so on, [handleRowsEvent]
    sends one entry for every pair, in the order of the pairs, each an
    update with the first row of the pair as its before image and the
    second as its after image, and each at the current coordinate; it
    returns [nil] and sets the hint to that coordinate. *)
Theorem handleRowsEvent_update_pairs (this : GoMySQLReader)
    (ev : BinlogEvent) (rowsEvent : RowsEvent) :
  IsLogPosOverflowBeyond4Bytes (currentCoordinates this)
    (LastAppliedRowsEventHint this) = false ->
  coord_lt (LastAppliedRowsEventHint this) (currentCoordinates this) ->
  dml_of ev = UpdateDML ->
  Nat.even (List.length (Rows rowsEvent)) = true ->
  Rows rowsEvent = rows_of_pairs (pairs_of (Rows rowsEvent)) /\
  handleRowsEvent this ev rowsEvent =
    mkHandled
      (set_LastAppliedRowsEventHint this (currentCoordinates this))
      (map (update_entry (currentCoordinates this) (Table rowsEvent))
         (pairs_of (Rows rowsEvent)))
      (Return None) /\
  (2 * List.length (sent (handleRowsEvent this ev rowsEvent)) =
     List.length (Rows rowsEvent))%nat /\
  Forall (fun e => Coordinates e = currentCoordinates this)
    (sent (handleRowsEvent this ev rowsEvent)).
Proof.
  intros Hov Hlt Hd Hev.
  destruct (rows_pairs_or_one_more (Rows rowsEvent))
    as [pairs [[_ E] | [Hodd _]]]; [| congruence].
  assert (Hp : pairs_of (Rows rowsEvent) = pairs).
  { rewrite E. apply pairs_of_rows_of_pairs. }
  rewrite Hp, (handleRowsEvent_pairs this ev rowsEvent pairs Hov Hlt Hd E).
  cbn [sent]. split; [exact E |]. split; [reflexivity |]. split.
  - rewrite length_map, E at 1. now rewrite length_rows_of_pairs.
  - apply Forall_map. apply Forall_forall. reflexivity.
Qed.

(** C2, amended.  At an update event that passes the overflow check, has
    a coordinate strictly greater than the hint and holds an odd number
    of rows, [handleRowsEvent] returns no error: it sends the entry of
    every pair before the last row, each with both its images, and then
    panics at the index behind the last row.  It sends no entry for the
    last row and does not move the hint. *)
Theorem handleRowsEvent_update_odd_panics (this : GoMySQLReader)
    (ev : BinlogEvent) (rowsEvent : RowsEvent) :
  IsLogPosOverflowBeyond4Bytes (currentCoordinates this)
    (LastAppliedRowsEventHint this) = false ->
  coord_lt (LastAppliedRowsEventHint this) (currentCoordinates this) ->
  dml_of ev = UpdateDML ->
  Nat.even (List.length (Rows rowsEvent)) = false ->
  handleRowsEvent this ev rowsEvent =
    mkHandled this
      (map (update_entry (currentCoordinates this) (Table rowsEvent))
         (pairs_of (Rows rowsEvent)))
      (Panic (index_out_of_range (List.length (Rows rowsEvent))
                (List.length (Rows rowsEvent)))) /\
  (forall err, ended (handleRowsEvent this ev rowsEvent) <> Return err) /\
  (2 * List.length (sent (handleRowsEvent this ev rowsEvent)) + 1 =
     List.length (Rows rowsEvent))%nat.
Proof.
  intros Hov Hlt Hd Hodd.
  destruct (rows_pairs_or_one_more (Rows rowsEvent))
    as [pairs [[Hev _] | [_ [last E]]]]; [congruence |].
  assert (Hp : pairs_of (Rows rowsEvent) = pairs).
  { rewrite E. apply pairs_of_one_more. }
  rewrite Hp,
    (handleRowsEvent_pairs_one_more this ev rowsEvent pairs last Hov Hlt Hd E).
  cbn [sent ended]. split; [reflexivity |]. split.
  - intros err. discriminate.
  - rewrite length_map, E, length_app, length_rows_of_pairs. simpl. lia.
Qed.

(** C7, amended.  At an event that passes the overflow check, has a
    coordinate strictly greater than the hint and a kind that is none of
    insert, update and delete, [handleRowsEvent] returns the error that
    names the type of the event, sends no entry and leaves the hint, and
    the reader, as they were.  At every event the hint moves all or
    nothing: a call leaves the reader as it was, or it has sent every row
    of the event, returns [nil] and has set the hint to the coordinate of
    the event. *)
Theorem handleRowsEvent_unknown_dml (this : GoMySQLReader)
    (ev : BinlogEvent) (rowsEvent : RowsEvent) :
  (IsLogPosOverflowBeyond4Bytes (currentCoordinates this)
     (LastAppliedRowsEventHint this) = false ->
   coord_lt (LastAppliedRowsEventHint this) (currentCoordinates this) ->
   dml_of ev = NotDML ->
   handleRowsEvent this ev rowsEvent =
     mkHandled this []
       (Return (Some (errorString
          ("Unknown DML type: " ++ EventType_String (Header_EventType (Header ev))))))) /\
  (reader_after (handleRowsEvent this ev rowsEvent) = this \/
   (ended (handleRowsEvent this ev rowsEvent) = Return None /\
    reader_after (handleRowsEvent this ev rowsEvent) =
      set_LastAppliedRowsEventHint this (currentCoordinates this) /\
    all_rows_sent this rowsEvent (dml_of ev)
      (sent (handleRowsEvent this ev rowsEvent)))).
Proof.
  split.
  - intros Hov Hlt Hd.
    rewrite (handleRowsEvent_decodes this ev rowsEvent Hov Hlt), Hd.
    reflexivity.
  - apply handleRowsEvent_all_or_nothing.
Qed.

(** ** Further properties *)

(** X1.  At an insert event, and at a delete event, that passes the
    overflow check and has a coordinate strictly greater than the hint,
    [handleRowsEvent] sends one entry for every row, in the order of the
    rows: an insert with the row as its after image alone, a delete with
    the row as its before image alone, each at the current coordinate.  It
    returns [nil] and sets the hint to that coordinate. *)
Theorem handleRowsEvent_insert_delete (this : GoMySQLReader)
    (ev : BinlogEvent) (rowsEvent : RowsEvent) :
  IsLogPosOverflowBeyond4Bytes (currentCoordinates this)
    (LastAppliedRowsEventHint this) = false ->
  coord_lt (LastAppliedRowsEventHint this) (currentCoordinates this) ->
  (dml_of ev = InsertDML ->
   handleRowsEvent this ev rowsEvent =
     mkHandled
       (set_LastAppliedRowsEventHint this (currentCoordinates this))
       (map (insert_entry (currentCoordinates this) (Table rowsEvent))
          (Rows rowsEvent))
       (Return None)) /\
  (dml_of ev = DeleteDML ->
   handleRowsEvent this ev rowsEvent =
     mkHandled
       (set_LastAppliedRowsEventHint this (currentCoordinates this))
       (map (delete_entry (currentCoordinates this) (Table rowsEvent))
          (Rows rowsEvent))
       (Return None)).
Proof.
  intros Hov Hlt.
  rewrite (handleRowsEvent_decodes this ev rowsEvent Hov Hlt).
  split; intros Hd; rewrite Hd; cbn [EventDML_eqb].
  - now rewrite rows_loop_insert.
  - now rewrite rows_loop_delete.
Qed.

(** X3.  When the client starts the sync, [ConnectBinlogStreamer] returns
    [nil], keeps the session, and leaves the reader at the coordinate
    supplied with its failure counter at 0. *)
Theorem ConnectBinlogStreamer_success (this : GoMySQLReader)
    (coordinates : BinlogCoordinates)
    (StartSync : Position -> option BinlogStreamer * option error)
    (session : BinlogStreamer) :
  IsEmpty coordinates = false ->
  0 <= authFailureCount this ->
  StartSync (mkPosition (LogFile coordinates) (GoInt.uint32 (LogPos coordinates)))
    = (Some session, None) ->
  ConnectBinlogStreamer this coordinates StartSync =
    (mkGoMySQLReader (migrationContext this) (Some session) coordinates
       (LastAppliedRowsEventHint this) 0,
     None).
Proof.
  intros Hne Hc Hs. unfold ConnectBinlogStreamer. rewrite Hne.
  cbn [set_currentCoordinates currentCoordinates]. rewrite Hs.
  destruct this as [mc st cur hint n]. simpl in *.
  destruct (Z.ltb_spec 0 n); [reflexivity |].
  replace n with 0 by lia. reflexivity.
Qed.

(** ** The breaker over any run of failures *)

Lemma handleAuthError_frame (this : GoMySQLReader) (err : option error)
    (context : string) :
  migrationContext (fst (handleAuthError this err context)) = migrationContext this /\
  binlogStreamer (fst (handleAuthError this err context)) = binlogStreamer this /\
  currentCoordinates (fst (handleAuthError this err context)) = currentCoordinates this /\
  LastAppliedRowsEventHint (fst (handleAuthError this err context)) =
    LastAppliedRowsEventHint this.
Proof.
  destruct err as [e |].
  - destruct (isAuthenticationError (Some e)) eqn:Ha.
    + rewrite (handleAuthError_failure _ _ _ Ha). simpl. auto.
    + rewrite (handleAuthError_other _ _ _ Ha). simpl. auto.
  - simpl. destruct (0 <? authFailureCount this); simpl; auto.
Qed.

Lemma handleAuthError_returns_failure (this : GoMySQLReader) (e : error)
    (context : string) :
  snd (handleAuthError this (Some e) context) <> None.
Proof.
  destruct (isAuthenticationError (Some e)) eqn:Ha.
  - rewrite (handleAuthError_failure _ _ _ Ha). simpl. discriminate.
  - rewrite (handleAuthError_other _ _ _ Ha). simpl. discriminate.
Qed.

Lemma classified_nonneg (errs : list error) : 0 <= classified errs.
Proof. unfold classified. lia. Qed.

Lemma classified_cons (e : error) (errs : list error) :
  classified (e :: errs) =
    (if isAuthenticationError (Some e) then 1 else 0) + classified errs.
Proof.
  unfold classified. cbn [filter].
  destruct (isAuthenticationError (Some e)); cbn [List.length]; lia.
Qed.

Lemma classified_firstn (k : nat) (errs : list error) :
  classified (firstn k errs) <= classified errs.
Proof.
  revert k. induction errs as [| e errs IH]; intros [| k]; cbn [firstn].
  - apply Z.le_refl.
  - apply Z.le_refl.
  - apply (classified_nonneg (e :: errs)).
  - rewrite !classified_cons. specialize (IH k). lia.
Qed.

(** X4.  Over any run of failures handed to [handleAuthError], the
    counter goes up by the number of those that are classified as
    authentication failures, as long as it stays an [int]: a failure of
    another kind neither counts nor resets the count.  The rest of the
    reader stays as it was. *)
Theorem handleAuthError_counts_classified (errs : list error) :
  forall (this : GoMySQLReader) (context : string),
  0 <= authFailureCount this ->
  authFailureCount this + classified errs <= GoInt.max_int ->
  authFailureCount (fst (handleAuthErrors this errs context)) =
    authFailureCount this + classified errs /\
  migrationContext (fst (handleAuthErrors this errs context)) = migrationContext this /\
  binlogStreamer (fst (handleAuthErrors this errs context)) = binlogStreamer this /\
  currentCoordinates (fst (handleAuthErrors this errs context)) =
    currentCoordinates this /\
  LastAppliedRowsEventHint (fst (handleAuthErrors this errs context)) =
    LastAppliedRowsEventHint this.
Proof.
  induction errs as [| e errs IH]; intros this context H0 Hmax.
  - simpl. unfold classified. simpl. rewrite Z.add_0_r. auto.
  - cbn [handleAuthErrors]. rewrite classified_cons in *.
    pose proof (classified_nonneg errs) as Hc.
    destruct (handleAuthError this (Some e) context) as [this1 r] eqn:H1.
    destruct (handleAuthErrors this1 errs context) as [this2 rs] eqn:H2.
    assert (Hstep : authFailureCount this1 =
                      authFailureCount this +
                      (if isAuthenticationError (Some e) then 1 else 0) /\
                    migrationContext this1 = migrationContext this /\
                    binlogStreamer this1 = binlogStreamer this /\
                    currentCoordinates this1 = currentCoordinates this /\
                    LastAppliedRowsEventHint this1 = LastAppliedRowsEventHint this).
    { destruct (isAuthenticationError (Some e)) eqn:Ha.
      - rewrite (handleAuthError_failure _ _ _ Ha) in H1.
        injection H1 as <- _. simpl. rewrite wrap_in_range; [auto |].
        unfold GoInt.in_range, GoInt.min_int, GoInt.max_int in *. lia.
      - rewrite (handleAuthError_other _ _ _ Ha) in H1.
        injection H1 as <- _. rewrite Z.add_0_r. auto. }
    destruct Hstep as [Hn [Hm [Hs [Hcur Hh]]]].
    assert (Hd : 0 <= (if isAuthenticationError (Some e) then 1 else 0) <= 1)
      by (destruct (isAuthenticationError (Some e)); lia).
    remember (if isAuthenticationError (Some e) then 1 else 0) as d.
    specialize (IH this1 context). rewrite H2 in IH. cbn [fst] in IH |- *.
    destruct IH as [In [Im [Is [Icur Ih]]]]; [lia | lia |].
    rewrite In, Im, Is, Icur, Ih, Hn, Hm, Hs, Hcur, Hh.
    repeat split; lia.
Qed.

(** X5.  In any run of failures, a failure that is not classified comes
    back as it is, and a classified one comes back as the tripped error
    exactly when a maximum is set and the classified failures of the run
    up to it, added to the count before, reach the maximum. *)
Theorem handleAuthError_verdicts (errs : list error) :
  forall (this : GoMySQLReader) (context : string) (k : nat) (e : error),
  0 <= authFailureCount this ->
  authFailureCount this + classified errs <= GoInt.max_int ->
  nth_error errs k = Some e ->
  nth_error (snd (handleAuthErrors this errs context)) k =
    Some (Some
      (if isAuthenticationError (Some e) &&
          (0 <? MaxAuthFailures (migrationContext this)) &&
          (MaxAuthFailures (migrationContext this) <=?
             authFailureCount this + classified (firstn (S k) errs))
       then tripped (authFailureCount this + classified (firstn (S k) errs))
              (MaxAuthFailures (migrationContext this)) context e
       else e)).
Proof.
  induction errs as [| e0 errs IH]; intros this context k e H0 Hmax Hk.
  - destruct k; discriminate.
  - cbn [handleAuthErrors]. rewrite classified_cons in Hmax.
    pose proof (classified_nonneg errs) as Hc.
    destruct (handleAuthError this (Some e0) context) as [this1 r] eqn:H1.
    destruct (handleAuthErrors this1 errs context) as [this2 rs] eqn:H2.
    destruct k as [| k].
    + injection Hk as ->. cbn [nth_error snd firstn].
      rewrite classified_cons. unfold classified at 1. cbn [firstn filter List.length].
      destruct (isAuthenticationError (Some e)) eqn:Ha.
      * rewrite (handleAuthError_failure _ _ _ Ha) in H1. injection H1 as _ <-.
        rewrite wrap_in_range
          by (unfold GoInt.in_range, GoInt.min_int, GoInt.max_int in *; lia).
        cbn [andb]. rewrite Z.add_0_r. reflexivity.
      * rewrite (handleAuthError_other _ _ _ Ha) in H1. injection H1 as _ <-.
        reflexivity.
    + cbn [nth_error snd] in *.
      specialize (IH this1 context k e). rewrite H2 in IH. cbn [snd] in IH.
      assert (Hstep : authFailureCount this1 =
                        authFailureCount this +
                        (if isAuthenticationError (Some e0) then 1 else 0) /\
                      migrationContext this1 = migrationContext this).
      { destruct (isAuthenticationError (Some e0)) eqn:Ha.
        - rewrite (handleAuthError_failure _ _ _ Ha) in H1.
          injection H1 as <- _. simpl. rewrite wrap_in_range; [auto |].
          unfold GoInt.in_range, GoInt.min_int, GoInt.max_int in *. lia.
        - rewrite (handleAuthError_other _ _ _ Ha) in H1.
          injection H1 as <- _. rewrite Z.add_0_r. auto. }
      destruct Hstep as [Hn Hm].
      assert (Hd : 0 <= (if isAuthenticationError (Some e0) then 1 else 0) <= 1)
        by (destruct (isAuthenticationError (Some e0)); lia).
      rewrite IH; [| lia | lia | exact Hk]. rewrite Hn, Hm.
      change (firstn (S (S k)) (e0 :: errs)) with (e0 :: firstn (S k) errs).
      rewrite classified_cons, Z.add_assoc. reflexivity.
Qed.

(** X6.  After a success the breaker starts anew, whatever was counted
    before: of the classified failures that follow, the first ones come
    back as they are and the one that reaches the maximum, and those after
    it, come back as the tripped error. *)
Theorem handleAuthError_recovers (this : GoMySQLReader) (errs : list error)
    (context : string) (k : nat) (e : error) :
  0 <= authFailureCount this ->
  Forall (fun e => isAuthenticationError (Some e) = true) errs ->
  nth_error errs k = Some e ->
  Z.of_nat k + 1 <= GoInt.max_int ->
  nth_error
    (snd (handleAuthErrors (fst (handleAuthError this None "event retrieval"))
            errs context)) k =
    Some (Some (if (0 <? MaxAuthFailures (migrationContext this)) &&
                   (MaxAuthFailures (migrationContext this) <=? Z.of_nat k + 1)
                then tripped (Z.of_nat k + 1)
                       (MaxAuthFailures (migrationContext this)) context e
                else e)).
Proof.
  intros H0 Hall Hk Hmax.
  assert (Hz : authFailureCount (fst (handleAuthError this None "event retrieval")) = 0).
  { simpl. destruct (Z.ltb_spec 0 (authFailureCount this)); simpl; lia. }
  destruct (handleAuthError_frame this None "event retrieval") as [Hm _].
  rewrite (handleAuthErrors_nth errs _ context k e Hall Hk); rewrite ?Hz; try lia.
  rewrite Hm. reflexivity.
Qed.

Lemma contains_fold_prefixed (prefix msg pat : string) :
  contains_fold msg pat -> contains_fold (prefix ++ msg) pat.
Proof.
  intros [pre [mid [post [E H]]]]. exists (prefix ++ pre), mid, post.
  split; [| exact H]. now rewrite E, string_app_assoc.
Qed.

(** X7.  Wrapping keeps the class of an error: an error that is
    classified as an authentication failure is classified still when
    [fmt.Errorf] wraps it with [%w] behind any text, and the tripped error
    of the breaker is classified whatever it wraps. *)
Theorem isAuthenticationError_survives_wrapping (e : error) (prefix : string) :
  (isAuthenticationError (Some e) = true ->
   isAuthenticationError (Some (errors.Errorf_w prefix e)) = true) /\
  (forall (count max : Z) (context : string),
     isAuthenticationError (Some (tripped count max context e)) = true).
Proof.
  split.
  - intros H. apply isAuthenticationError_spec in H.
    apply isAuthenticationError_spec. unfold errors.Errorf_w.
    destruct H as [[m [Hw Hr]] | [H | H]].
    + left. exists m. split; [now constructor | exact Hr].
    + right. left. cbn [errors.Error]. now apply contains_fold_prefixed.
    + right. right. cbn [errors.Error]. now apply contains_fold_prefixed.
  - intros count max context. apply isAuthenticationError_spec.
    right. right. unfold tripped, errors.Errorf_w. cbn [errors.Error].
    exists "", "authentication failed",
      (" " ++ fmt.d count ++ " times (max: " ++ fmt.d max ++ ") during " ++
       context ++ ", aborting to prevent firewall blocking: " ++ errors.Error e).
    split; [| reflexivity].
    rewrite !string_app_assoc. reflexivity.
Qed.

(** ** The order of the coordinates, and the hint *)

Lemma compare_lt_trans (a : string) :
  forall b c,
  (a ?= b)%string = Lt -> (b ?= c)%string = Lt -> (a ?= c)%string = Lt.
Proof.
  induction a as [| x a IH]; intros [| y b] [| z c]; simpl; try congruence.
  unfold Ascii.compare.
  destruct (N.compare_spec (N_of_ascii x) (N_of_ascii y)) as [E1 | L1 | G1];
    destruct (N.compare_spec (N_of_ascii y) (N_of_ascii z)) as [E2 | L2 | G2];
    intros H1 H2; try discriminate;
    destruct (N.compare_spec (N_of_ascii x) (N_of_ascii z)); try lia; eauto.
Qed.

Lemma ltb_trans (a b c : string) :
  (a <? b)%string = true -> (b <? c)%string = true -> (a <? c)%string = true.
Proof.
  unfold String.ltb. intros H1 H2.
  destruct (a ?= b)%string eqn:E1; try discriminate.
  destruct (b ?= c)%string eqn:E2; try discriminate.
  now rewrite (compare_lt_trans a b c E1 E2).
Qed.

Lemma coord_lt_trans (a b c : BinlogCoordinates) :
  coord_lt a b -> coord_lt b c -> coord_lt a c.
Proof.
  unfold coord_lt. intros [H1 | [E1 P1]] [H2 | [E2 P2]].
  - left. exact (ltb_trans _ _ _ H1 H2).
  - left. now rewrite <- E2.
  - left. now rewrite E1.
  - right. split; [congruence | lia].
Qed.

Lemma coord_lt_le (a b : BinlogCoordinates) : coord_lt a b -> coord_le a b.
Proof.
  unfold coord_lt, coord_le. intros [H | [E P]]; [left; exact H |].
  right. split; [exact E | lia].
Qed.

Lemma coord_le_refl (a : BinlogCoordinates) : coord_le a a.
Proof. right. split; [reflexivity | lia]. Qed.

(** Every entry of the loop is at the current coordinate, for the table
    of the event, of the kind of the event, and whole. *)
Lemma rows_loop_entries (this : GoMySQLReader) (rowsEvent : RowsEvent)
    (dml : EventDML) (rest : list (list V)) :
  dml <> NotDML ->
  forall i,
  Forall (fun e =>
            Coordinates e = currentCoordinates this /\
            whole_entry e /\
            exists d,
              DmlEvent e = Some d /\ DML d = dml /\
              DatabaseName d = Schema (Table rowsEvent) /\
              TableName d = Table_name (Table rowsEvent))
    (fst (rows_loop this rowsEvent dml i rest)).
Proof.
  intros Hd. induction rest as [| row rest IH]; intros i.
  - constructor.
  - cbn [rows_loop].
    destruct (EventDML_eqb dml UpdateDML && (i mod 2 =? 1)%nat); [apply IH |].
    specialize (IH (S i)).
    destruct dml; [contradiction | | |]; cbn [entry_of_row].
    + destruct (rows_loop this rowsEvent InsertDML (S i) rest) as [es p].
      constructor; [| exact IH].
      unfold whole_entry. simpl. repeat split; try discriminate.
      eexists. repeat split.
    + destruct (nth_error (Rows rowsEvent) (i + 1)) as [next |];
        [| constructor].
      destruct (rows_loop this rowsEvent UpdateDML (S i) rest) as [es p].
      constructor; [| exact IH].
      unfold whole_entry. simpl. repeat split; try discriminate.
      eexists. repeat split.
    + destruct (rows_loop this rowsEvent DeleteDML (S i) rest) as [es p].
      constructor; [| exact IH].
      unfold whole_entry. simpl. repeat split; try discriminate.
      eexists. repeat split.
Qed.

Lemma EventDML_eqb_NotDML (dml : EventDML) :
  EventDML_eqb dml NotDML = false -> dml <> NotDML.
Proof. intros H ->. discriminate. Qed.

(** X8.  Whatever the event and however the call ends, an entry that
    [handleRowsEvent] sends is at the current coordinate, names the schema
    and the table of the event, is of the kind of the event, and is whole:
    an insert has its after image alone, a delete its before image alone,
    an update both. *)
Theorem handleRowsEvent_entries_whole (this : GoMySQLReader)
    (ev : BinlogEvent) (rowsEvent : RowsEvent) :
  Forall (fun e =>
            Coordinates e = currentCoordinates this /\
            whole_entry e /\
            exists d,
              DmlEvent e = Some d /\ DML d = dml_of ev /\
              DatabaseName d = Schema (Table rowsEvent) /\
              TableName d = Table_name (Table rowsEvent))
    (sent (handleRowsEvent this ev rowsEvent)).
Proof.
  unfold handleRowsEvent. fold (dml_of ev).
  destruct (IsLogPosOverflowBeyond4Bytes _ _); [constructor |].
  destruct (SmallerThanOrEquals _ _); [constructor |].
  destruct (EventDML_eqb (dml_of ev) NotDML) eqn:Hd; [constructor |].
  pose proof (rows_loop_entries this rowsEvent (dml_of ev) (Rows rowsEvent)
                (EventDML_eqb_NotDML _ Hd) 0%nat) as H.
  destruct (rows_loop this rowsEvent (dml_of ev) 0 (Rows rowsEvent))
    as [entries [p |]]; exact H.
Qed.

(** The ways a call of [handleRowsEvent] goes: it sends nothing and
    leaves the reader, or the event lies strictly behind the hint and
    passes the overflow check, and then the call ends with [nil] and the
    hint at the current coordinate, or with a panic and the reader as it
    was. *)
Lemma handleRowsEvent_cases (this : GoMySQLReader) (ev : BinlogEvent)
    (rowsEvent : RowsEvent) :
  (sent (handleRowsEvent this ev rowsEvent) = [] /\
   reader_after (handleRowsEvent this ev rowsEvent) = this /\
   (ended (handleRowsEvent this ev rowsEvent) = Return None ->
    IsLogPosOverflowBeyond4Bytes (currentCoordinates this)
      (LastAppliedRowsEventHint this) = false /\
    SmallerThanOrEquals (currentCoordinates this)
      (LastAppliedRowsEventHint this) = true)) \/
  (coord_lt (LastAppliedRowsEventHint this) (currentCoordinates this) /\
   ((ended (handleRowsEvent this ev rowsEvent) = Return None /\
     reader_after (handleRowsEvent this ev rowsEvent) =
       set_LastAppliedRowsEventHint this (currentCoordinates this)) \/
    (reader_after (handleRowsEvent this ev rowsEvent) = this /\
     exists p, ended (handleRowsEvent this ev rowsEvent) = Panic p))).
Proof.
  unfold handleRowsEvent.
  destruct (IsLogPosOverflowBeyond4Bytes _ _) eqn:Hov.
  { left. simpl. repeat split; discriminate. }
  destruct (SmallerThanOrEquals _ _) eqn:Hle.
  { left. simpl. auto. }
  assert (Hlt : coord_lt (LastAppliedRowsEventHint this) (currentCoordinates this)).
  { apply SmallerThan_spec. rewrite SmallerThanOrEquals_negb in Hle.
    now destruct (SmallerThan _ _). }
  destruct (EventDML_eqb _ NotDML).
  { left. simpl. repeat split; discriminate. }
  right. split; [exact Hlt |].
  destruct (rows_loop _ _ _ _ _) as [entries [p |]]; simpl.
  - right. split; [reflexivity | now exists p].
  - left. auto.
Qed.

(** X9.  A call of [handleRowsEvent] changes nothing of the reader but
    the hint, and where it changes the hint, the new hint is the current
    coordinate and lies strictly behind the old one in the order of the
    log: the hint never moves back. *)
Theorem handleRowsEvent_hint_moves_forward (this : GoMySQLReader)
    (ev : BinlogEvent) (rowsEvent : RowsEvent) :
  migrationContext (reader_after (handleRowsEvent this ev rowsEvent)) =
    migrationContext this /\
  binlogStreamer (reader_after (handleRowsEvent this ev rowsEvent)) =
    binlogStreamer this /\
  currentCoordinates (reader_after (handleRowsEvent this ev rowsEvent)) =
    currentCoordinates this /\
  authFailureCount (reader_after (handleRowsEvent this ev rowsEvent)) =
    authFailureCount this /\
  (LastAppliedRowsEventHint (reader_after (handleRowsEvent this ev rowsEvent)) =
     LastAppliedRowsEventHint this \/
   (LastAppliedRowsEventHint (reader_after (handleRowsEvent this ev rowsEvent)) =
      currentCoordinates this /\
    coord_lt (LastAppliedRowsEventHint this)
      (LastAppliedRowsEventHint (reader_after (handleRowsEvent this ev rowsEvent))))).
Proof.
  destruct (handleRowsEvent_cases this ev rowsEvent)
    as [[_ [-> _]] | [Hlt [[_ ->] | [-> _]]]]; simpl; auto 10.
Qed.

(** X10.  Once a call of [handleRowsEvent] has returned [nil], no call at
    the same coordinate sends anything or changes the reader, whatever
    event it is given: no event is sent twice. *)
Theorem handleRowsEvent_no_replay (this : GoMySQLReader)
    (ev : BinlogEvent) (rowsEvent : RowsEvent) :
  ended (handleRowsEvent this ev rowsEvent) = Return None ->
  forall (ev' : BinlogEvent) (rowsEvent' : RowsEvent),
    sent (handleRowsEvent (reader_after (handleRowsEvent this ev rowsEvent))
            ev' rowsEvent') = [] /\
    reader_after
      (handleRowsEvent (reader_after (handleRowsEvent this ev rowsEvent))
         ev' rowsEvent') =
      reader_after (handleRowsEvent this ev rowsEvent).
Proof.
  intros He ev' rowsEvent'.
  destruct (handleRowsEvent_cases this ev rowsEvent)
    as [[_ [-> Hg]] | [Hlt [[_ ->] | [_ [p Hp]]]]].
  - destruct (Hg He) as [Hov Hle].
    unfold handleRowsEvent. rewrite Hov, Hle. auto.
  - rewrite handleRowsEvent_applied by apply coord_le_refl.
    destruct (IsLogPosOverflowBeyond4Bytes _ _); auto.
  - congruence.
Qed.

(** ** The stream of events *)

Lemma handleRowsEvent_frame (this : GoMySQLReader) (ev : BinlogEvent)
    (rowsEvent : RowsEvent) :
  migrationContext (reader_after (handleRowsEvent this ev rowsEvent)) =
    migrationContext this /\
  currentCoordinates (reader_after (handleRowsEvent this ev rowsEvent)) =
    currentCoordinates this /\
  authFailureCount (reader_after (handleRowsEvent this ev rowsEvent)) =
    authFailureCount this.
Proof.
  destruct (handleRowsEvent_cases this ev rowsEvent)
    as [[_ [-> _]] | [_ [[_ ->] | [-> _]]]]; simpl; auto.
Qed.

Lemma handleRowsEvent_sent_at_current (this : GoMySQLReader) (ev : BinlogEvent)
    (rowsEvent : RowsEvent) :
  Forall (fun e => Coordinates e = currentCoordinates this)
    (sent (handleRowsEvent this ev rowsEvent)).
Proof.
  unfold handleRowsEvent.
  destruct (IsLogPosOverflowBeyond4Bytes _ _); [constructor |].
  destruct (SmallerThanOrEquals _ _); [constructor |].
  destruct (EventDML_eqb _ NotDML) eqn:Hd; [constructor |].
  pose proof (rows_loop_entries this rowsEvent _ (Rows rowsEvent)
                (EventDML_eqb_NotDML _ Hd) 0%nat) as H.
  destruct (rows_loop _ _ _ _ _) as [entries [p |]]; simpl in *;
    (eapply Forall_impl; [| exact H]); intros e He; apply He.
Qed.

Lemma at_event_frame (this : GoMySQLReader) (fe : FetchedEvent) :
  migrationContext (at_event this fe) = migrationContext this /\
  LastAppliedRowsEventHint (at_event this fe) = LastAppliedRowsEventHint this /\
  currentCoordinates (at_event this fe) =
    mkBinlogCoordinates (LogFile (currentCoordinates this))
      (Header_LogPos (Header (fetched_ev fe)))
      (Header_EventSize (Header (fetched_ev fe))) /\
  (0 <= authFailureCount this -> authFailureCount (at_event this fe) = 0).
Proof.
  unfold at_event.
  destruct (handleAuthError_frame this None "event retrieval") as [Hm [_ [Hc Hh]]].
  cbn [set_currentCoordinates migrationContext LastAppliedRowsEventHint
         currentCoordinates authFailureCount].
  rewrite Hm, Hh, Hc. repeat split.
  intros H0. simpl. destruct (Z.ltb_spec 0 (authFailureCount this)); simpl; lia.
Qed.

Lemma stream_loop_fetch_ok (this : GoMySQLReader) (fe : FetchedEvent)
    (turns : list turn) :
  stream_loop this (fetch_ok fe :: turns) =
    match fetched_body fe with
    | RotateEvent NextLogName =>
        and_then fe []
          (stream_loop
             (set_currentCoordinates (at_event this fe)
                (mkBinlogCoordinates NextLogName
                   (LogPos (currentCoordinates (at_event this fe)))
                   (EventSize (currentCoordinates (at_event this fe)))))
             turns)
    | RowsEventBody rowsEvent =>
        match ended (handleRowsEvent (at_event this fe) (fetched_ev fe) rowsEvent) with
        | Return None =>
            and_then fe
              (sent (handleRowsEvent (at_event this fe) (fetched_ev fe) rowsEvent))
              (stream_loop
                 (reader_after
                    (handleRowsEvent (at_event this fe) (fetched_ev fe) rowsEvent))
                 turns)
        | c =>
            mkStreamed
              (reader_after
                 (handleRowsEvent (at_event this fe) (fetched_ev fe) rowsEvent))
              (sent (handleRowsEvent (at_event this fe) (fetched_ev fe) rowsEvent))
              [fe] (Some c)
        end
    | OtherEvent => and_then fe [] (stream_loop (at_event this fe) turns)
    end.
Proof. reflexivity. Qed.

Lemma stream_loop_tracks (turns : list turn) :
  forall this : GoMySQLReader,
  currentCoordinates (stream_reader (stream_loop this turns)) =
    fold_left advance (stream_fetched (stream_loop this turns))
      (currentCoordinates this).
Proof.
  induction turns as [| t turns IH]; intros this; [reflexivity |].
  destruct t as [| fe | err].
  - reflexivity.
  - rewrite stream_loop_fetch_ok.
    destruct (at_event_frame this fe) as [_ [_ [Hc _]]].
    unfold advance.
    destruct (fetched_body fe) as [next | rowsEvent |] eqn:Hb.
    + cbn [and_then stream_reader stream_fetched fold_left].
      rewrite IH, Hb. cbn [set_currentCoordinates currentCoordinates].
      now rewrite Hc.
    + destruct (handleRowsEvent_frame (at_event this fe) (fetched_ev fe) rowsEvent)
        as [_ [Hf _]].
      destruct (ended _) as [[e |] | p];
        cbn [and_then stream_reader stream_fetched fold_left];
        rewrite ?IH, Hb, Hf, Hc; reflexivity.
    + cbn [and_then stream_reader stream_fetched fold_left].
      now rewrite IH, Hb, Hc.
  - cbn [stream_loop].
    destruct (handleAuthError_frame this (Some err) "streaming") as [_ [_ [Hc _]]].
    destruct (handleAuthError this (Some err) "streaming") as [this' verdict].
    exact Hc.
Qed.

(** X11.  The coordinate that [GetCurrentBinlogCoordinates] reports after
    a run of [StreamEvents], ended or not, is the coordinate before the run
    carried through the events fetched: the position and the size are those
    of the header of the last event fetched, and the log file is the one
    the last rotation fetched names.  It is so also when the last event
    was skipped, or refused with an error. *)
Theorem StreamEvents_tracks_coordinates (this : GoMySQLReader)
    (stopped : bool) (turns : list turn) :
  GetCurrentBinlogCoordinates (stream_reader (StreamEvents this stopped turns)) =
    fold_left advance (stream_fetched (StreamEvents this stopped turns))
      (GetCurrentBinlogCoordinates this).
Proof.
  unfold StreamEvents, GetCurrentBinlogCoordinates.
  destruct stopped; [reflexivity | apply stream_loop_tracks].
Qed.

Lemma sorted_same (c : BinlogCoordinates) (entries : list BinlogEntry) :
  Forall (fun e => Coordinates e = c) entries ->
  StronglySorted entry_le entries.
Proof.
  induction 1 as [| e entries He Hall IH]; constructor; [exact IH |].
  eapply Forall_impl; [| exact Hall].
  intros e' He'. unfold entry_le. rewrite He, He'. apply coord_le_refl.
Qed.

Lemma sorted_app (l1 l2 : list BinlogEntry) :
  StronglySorted entry_le l1 -> StronglySorted entry_le l2 ->
  Forall (fun a => Forall (entry_le a) l2) l1 ->
  StronglySorted entry_le (l1 ++ l2).
Proof.
  induction 1 as [| a l1 Hs IH Ha]; intros H2 Hall; [exact H2 |].
  inversion Hall as [| ? ? Hal2 Hall']; subst.
  simpl. constructor; [now apply IH |].
  apply Forall_app. split; assumption.
Qed.

Lemma stream_loop_in_order (turns : list turn) :
  forall this : GoMySQLReader,
  Forall (fun e => coord_lt (LastAppliedRowsEventHint this) (Coordinates e))
    (stream_sent (stream_loop this turns)) /\
  StronglySorted entry_le (stream_sent (stream_loop this turns)) /\
  (LastAppliedRowsEventHint (stream_reader (stream_loop this turns)) =
     LastAppliedRowsEventHint this \/
   coord_lt (LastAppliedRowsEventHint this)
     (LastAppliedRowsEventHint (stream_reader (stream_loop this turns)))).
Proof.
  induction turns as [| t turns IH]; intros this.
  { simpl. repeat split; auto; constructor. }
  destruct t as [| fe | err].
  - simpl. repeat split; auto; constructor.
  - rewrite stream_loop_fetch_ok.
    destruct (at_event_frame this fe) as [_ [Hh _]].
    destruct (fetched_body fe) as [next | rowsEvent |].
    + cbn [and_then stream_reader stream_sent app].
      match goal with |- context [stream_loop ?r turns] => specialize (IH r) end.
      cbn [set_currentCoordinates LastAppliedRowsEventHint] in IH.
      rewrite Hh in IH. exact IH.
    + pose proof (handleRowsEvent_sent_at_current (at_event this fe)
                    (fetched_ev fe) rowsEvent) as Hat.
      destruct (handleRowsEvent_cases (at_event this fe) (fetched_ev fe) rowsEvent)
        as [[Hs [Hr _]] | [Hlt [[He Hr] | [Hr [p Hp]]]]].
      * rewrite Hs, Hr.
        destruct (ended _) as [[e |] | p];
          cbn [and_then stream_reader stream_sent app];
          try (rewrite <- Hh; apply IH);
          rewrite Hh; repeat split; auto; constructor.
      * rewrite He, Hr. cbn [and_then stream_reader stream_sent].
        rewrite Hh in Hlt.
        destruct (IH (set_LastAppliedRowsEventHint (at_event this fe)
                        (currentCoordinates (at_event this fe))))
          as [Hall [Hsorted Hhint]].
        cbn [set_LastAppliedRowsEventHint LastAppliedRowsEventHint] in Hall, Hhint.
        assert (Hfirst : Forall (fun e => coord_lt (LastAppliedRowsEventHint this)
                                            (Coordinates e))
                           (sent (handleRowsEvent (at_event this fe)
                                    (fetched_ev fe) rowsEvent))).
        { eapply Forall_impl; [| exact Hat]. intros e ->. exact Hlt. }
        split; [| split].
        -- apply Forall_app. split; [exact Hfirst |].
           eapply Forall_impl; [| exact Hall].
           intros e He'. exact (coord_lt_trans _ _ _ Hlt He').
        -- apply sorted_app; [exact (sorted_same _ _ Hat) | exact Hsorted |].
           eapply Forall_impl; [| exact Hat]. intros a Ha.
           eapply Forall_impl; [| exact Hall]. intros b Hb.
           unfold entry_le. rewrite Ha. now apply coord_lt_le.
        -- right. destruct Hhint as [-> | Hhint]; [exact Hlt |].
           exact (coord_lt_trans _ _ _ Hlt Hhint).
      * rewrite Hp, Hr. cbn [stream_reader stream_sent]. rewrite Hh in Hlt.
        split; [| split].
        -- eapply Forall_impl; [| exact Hat]. intros e ->. exact Hlt.
        -- exact (sorted_same _ _ Hat).
        -- left. exact Hh.
    + cbn [and_then stream_reader stream_sent app]. rewrite <- Hh. apply IH.
  - cbn [stream_loop].
    destruct (handleAuthError_frame this (Some err) "streaming") as [_ [_ [_ Hh]]].
    destruct (handleAuthError this (Some err) "streaming") as [this' verdict].
    simpl in *. repeat split; auto; constructor.
Qed.

(** X12.  In a run of [StreamEvents], ended or not, every entry sent lies
    strictly behind the hint the run started with, and the entries are
    sent in the order of the log, by log file and then by position: no
    entry comes before one sent earlier.  The hint itself has stayed or
    moved forward. *)
Theorem StreamEvents_entries_in_order (this : GoMySQLReader)
    (stopped : bool) (turns : list turn) :
  Forall (fun e => coord_lt (LastAppliedRowsEventHint this) (Coordinates e))
    (stream_sent (StreamEvents this stopped turns)) /\
  StronglySorted (fun a b => coord_le (Coordinates a) (Coordinates b))
    (stream_sent (StreamEvents this stopped turns)) /\
  (LastAppliedRowsEventHint (stream_reader (StreamEvents this stopped turns)) =
     LastAppliedRowsEventHint this \/
   coord_lt (LastAppliedRowsEventHint this)
     (LastAppliedRowsEventHint (stream_reader (StreamEvents this stopped turns)))).
Proof.
  unfold StreamEvents. destruct stopped.
  - simpl. repeat split; auto; constructor.
  - exact (stream_loop_in_order turns this).
Qed.

(** A run that has not ended goes on with the turns that follow. *)
Lemma stream_loop_app (turns : list turn) :
  forall (this : GoMySQLReader) (more : list turn),
  stream_ended (stream_loop this turns) = None ->
  stream_loop this (turns ++ more) =
    mkStreamed
      (stream_reader (stream_loop (stream_reader (stream_loop this turns)) more))
      (stream_sent (stream_loop this turns) ++
         stream_sent (stream_loop (stream_reader (stream_loop this turns)) more))
      (stream_fetched (stream_loop this turns) ++
         stream_fetched (stream_loop (stream_reader (stream_loop this turns)) more))
      (stream_ended (stream_loop (stream_reader (stream_loop this turns)) more)).
Proof.
  induction turns as [| t turns IH]; intros this more Hrun.
  { simpl. now destruct (stream_loop this more). }
  destruct t as [| fe | err].
  - discriminate Hrun.
  - change ((fetch_ok fe :: turns) ++ more)%list
      with (fetch_ok fe :: (turns ++ more))%list.
    rewrite !stream_loop_fetch_ok in *.
    destruct (fetched_body fe) as [next | rowsEvent |].
    + cbn [and_then stream_ended] in Hrun. rewrite (IH _ more Hrun).
      unfold and_then. simpl. reflexivity.
    + destruct (ended _) as [[e |] | p]; try discriminate Hrun.
      cbn [and_then stream_ended] in Hrun. rewrite (IH _ more Hrun).
      unfold and_then. simpl. now rewrite app_assoc.
    + cbn [and_then stream_ended] in Hrun. rewrite (IH _ more Hrun).
      unfold and_then. simpl. reflexivity.
  - cbn [stream_loop] in Hrun.
    destruct (handleAuthError this (Some err) "streaming"). discriminate Hrun.
Qed.

(** While a run goes on, the configuration stays, and once an event has
    been fetched no failure is counted. *)
Lemma stream_loop_running (turns : list turn) :
  forall this : GoMySQLReader,
  0 <= authFailureCount this ->
  stream_ended (stream_loop this turns) = None ->
  migrationContext (stream_reader (stream_loop this turns)) = migrationContext this /\
  ((stream_fetched (stream_loop this turns) = [] /\
    stream_reader (stream_loop this turns) = this) \/
   authFailureCount (stream_reader (stream_loop this turns)) = 0).
Proof.
  induction turns as [| t turns IH]; intros this H0 Hrun.
  { simpl. auto. }
  destruct t as [| fe | err].
  - discriminate Hrun.
  - rewrite stream_loop_fetch_ok in *.
    destruct (at_event_frame this fe) as [Hm [_ [_ Hc]]]. specialize (Hc H0).
    destruct (fetched_body fe) as [next | rowsEvent |].
    + cbn [and_then stream_ended stream_reader stream_fetched] in *.
      match goal with |- context [stream_loop ?r turns] =>
        destruct (IH r) as [Im Ic];
          [cbn [set_currentCoordinates authFailureCount]; lia | exact Hrun |] end.
      cbn [set_currentCoordinates migrationContext authFailureCount] in Im.
      rewrite Im, Hm. split; [reflexivity | right].
      destruct Ic as [[_ ->] | Ic]; [exact Hc | exact Ic].
    + destruct (handleRowsEvent_frame (at_event this fe) (fetched_ev fe) rowsEvent)
        as [Fm [_ Fc]].
      destruct (ended _) as [[e |] | p]; try discriminate Hrun.
      cbn [and_then stream_ended stream_reader stream_fetched] in *.
      match goal with |- context [stream_loop ?r turns] =>
        destruct (IH r) as [Im Ic]; [rewrite Fc; lia | exact Hrun |] end.
      rewrite Im, Fm, Hm. split; [reflexivity | right].
      destruct Ic as [[_ ->] | Ic]; [now rewrite Fc | exact Ic].
    + cbn [and_then stream_ended stream_reader stream_fetched] in *.
      destruct (IH (at_event this fe)) as [Im Ic]; [lia | exact Hrun |].
      rewrite Im, Hm. split; [reflexivity | right].
      destruct Ic as [[_ ->] | Ic]; [exact Hc | exact Ic].
  - cbn [stream_loop] in Hrun.
    destruct (handleAuthError this (Some err) "streaming"). discriminate Hrun.
Qed.

(** X13.  When [GetEvent] fails in a run of [StreamEvents] that has
    fetched an event before, the run ends there and returns the error of
    the client as it is, unless the maximum is 1 and the error is
    classified: every event fetched resets the count of failures, so that
    the failure counts as the first.  Nothing more is sent or fetched. *)
Theorem StreamEvents_fetch_error (this : GoMySQLReader) (turns more : list turn)
    (err : error) :
  0 <= authFailureCount this ->
  stream_ended (stream_loop this turns) = None ->
  stream_fetched (stream_loop this turns) <> [] ->
  stream_ended (StreamEvents this false (turns ++ fetch_err err :: more)) =
    Some (Return (Some
      (if isAuthenticationError (Some err) &&
          (MaxAuthFailures (migrationContext this) =? 1)
       then tripped 1 1 "streaming" err else err))) /\
  authFailureCount
    (stream_reader (StreamEvents this false (turns ++ fetch_err err :: more))) =
    (if isAuthenticationError (Some err) then 1 else 0) /\
  stream_sent (StreamEvents this false (turns ++ fetch_err err :: more)) =
    stream_sent (stream_loop this turns) /\
  stream_fetched (StreamEvents this false (turns ++ fetch_err err :: more)) =
    stream_fetched (stream_loop this turns).
Proof.
  intros H0 Hrun Hne. unfold StreamEvents.
  rewrite (stream_loop_app turns this _ Hrun).
  destruct (stream_loop_running turns this H0 Hrun) as [Hm [[He _] | Hc]];
    [contradiction |].
  cbn [stream_loop].
  destruct (isAuthenticationError (Some err)) eqn:Ha.
  - rewrite (handleAuthError_failure _ _ _ Ha). rewrite Hc, Hm.
    change (GoInt.wrap (0 + 1)) with 1.
    cbn [stream_ended stream_reader stream_sent stream_fetched
           set_authFailureCount authFailureCount migrationContext andb].
    rewrite !app_nil_r. repeat split.
    destruct (Z.eqb_spec (MaxAuthFailures (migrationContext this)) 1) as [-> | Hn].
    + reflexivity.
    + destruct (Z.ltb_spec 0 (MaxAuthFailures (migrationContext this)));
        destruct (Z.leb_spec (MaxAuthFailures (migrationContext this)) 1);
        simpl; try reflexivity; lia.
  - rewrite (handleAuthError_other _ _ _ Ha).
    cbn [stream_ended stream_reader stream_sent stream_fetched andb].
    rewrite !app_nil_r. auto.
Qed.

Lemma stream_loop_nil_on_stop (turns : list turn) :
  forall this : GoMySQLReader,
  stream_ended (stream_loop this turns) = Some (Return None) ->
  exists rest,
    turns = (map fetch_ok (stream_fetched (stream_loop this turns)) ++ stop :: rest)%list.
Proof.
  induction turns as [| t turns IH]; intros this Hend; [discriminate Hend |].
  destruct t as [| fe | err].
  - exists turns. reflexivity.
  - rewrite stream_loop_fetch_ok in *.
    destruct (fetched_body fe) as [next | rowsEvent |].
    + cbn [and_then stream_ended stream_fetched] in *.
      destruct (IH _ Hend) as [rest E]. exists rest.
      cbn [map app]. f_equal. exact E.
    + destruct (ended _) as [[e |] | p]; try discriminate Hend.
      cbn [and_then stream_ended stream_fetched] in *.
      destruct (IH _ Hend) as [rest E]. exists rest.
      cbn [map app]. f_equal. exact E.
    + cbn [and_then stream_ended stream_fetched] in *.
      destruct (IH _ Hend) as [rest E]. exists rest.
      cbn [map app]. f_equal. exact E.
  - exfalso. cbn [stream_loop] in Hend.
    pose proof (handleAuthError_returns_failure this err "streaming") as Hv.
    destruct (handleAuthError this (Some err) "streaming") as [this' verdict].
    simpl in *. congruence.
Qed.

(** The events before a later one are handled without an error when all
    are, and then the later ones are handled from the reader they leave. *)
Lemma handled_without_error_cons (this next : GoMySQLReader)
    (fe : FetchedEvent) (fes : list FetchedEvent) :
  (forall turns, stream_reader (stream_loop this (fetch_ok fe :: turns)) =
                 stream_reader (stream_loop next turns)) ->
  (forall rowsEvent, fetched_body fe = RowsEventBody rowsEvent ->
     ended (handleRowsEvent (at_event this fe) (fetched_ev fe) rowsEvent) = Return None) ->
  (handled_without_error this (fe :: fes) <-> handled_without_error next fes).
Proof.
  intros Hnext Hfe. split; intros H pre fe' post rowsEvent E Hb.
  - rewrite <- Hnext.
    apply (H (fe :: pre) fe' post rowsEvent); [now rewrite E | exact Hb].
  - destruct pre as [| p pre]; cbn [app] in E; injection E as E1 E2.
    + subst fe'. cbn [map stream_loop stream_reader]. now apply Hfe.
    + subst p. cbn [map]. rewrite Hnext. now apply (H pre fe' post rowsEvent).
Qed.

(** A run that meets [stop] after the events [fes] returns [nil] exactly
    when these events are handled without an error. *)
Lemma stream_loop_nil_iff (fes : list FetchedEvent) (rest : list turn) :
  forall this : GoMySQLReader,
  stream_ended (stream_loop this (map fetch_ok fes ++ stop :: rest)) = Some (Return None)
  <-> handled_without_error this fes.
Proof.
  induction fes as [| fe fes IH]; intros this.
  { split; [| reflexivity]. intros _ pre fe post rowsEvent E. now destruct pre. }
  cbn [map app]. rewrite stream_loop_fetch_ok.
  destruct (fetched_body fe) as [next | rowsEvent |] eqn:Eb.
  - cbn [and_then stream_ended]. rewrite IH. symmetry.
    apply handled_without_error_cons.
    + intros turns. rewrite stream_loop_fetch_ok, Eb. reflexivity.
    + intros r Hr. congruence.
  - destruct (ended (handleRowsEvent (at_event this fe) (fetched_ev fe) rowsEvent))
      as [[e |] | p] eqn:Eh.
    + split; [discriminate |]. intros H.
      specialize (H [] fe fes rowsEvent eq_refl Eb).
      cbn [map stream_loop stream_reader] in H. congruence.
    + cbn [and_then stream_ended]. rewrite IH. symmetry.
      apply handled_without_error_cons.
      * intros turns. rewrite stream_loop_fetch_ok, Eb, Eh. reflexivity.
      * intros r Hr. rewrite Eb in Hr. injection Hr as <-. exact Eh.
    + split; [discriminate |]. intros H.
      specialize (H [] fe fes rowsEvent eq_refl Eb).
      cbn [map stream_loop stream_reader] in H. congruence.
  - cbn [and_then stream_ended]. rewrite IH. symmetry.
    apply handled_without_error_cons.
    + intros turns. rewrite stream_loop_fetch_ok, Eb. reflexivity.
    + intros r Hr. congruence.
Qed.

(** X14.  [StreamEvents] returns [nil] exactly where [canStopStreaming] has
    answered true: before the loop, or at the top of the loop after events
    that were all fetched without an error and handled without one, each
    rows event by a call of [handleRowsEvent] that returned [nil].  An
    error of [GetEvent] or of [handleRowsEvent] is never turned into
    [nil]. *)
Theorem StreamEvents_nil_only_on_stop (this : GoMySQLReader)
    (stopped : bool) (turns : list turn) :
  stream_ended (StreamEvents this stopped turns) = Some (Return None) <->
  stopped = true \/
  exists rest,
    turns =
      (map fetch_ok (stream_fetched (StreamEvents this stopped turns)) ++
       stop :: rest)%list /\
    handled_without_error this (stream_fetched (StreamEvents this stopped turns)).
Proof.
  unfold StreamEvents. destruct stopped.
  { split; [left; reflexivity | reflexivity]. }
  split.
  - intros H. right.
    destruct (stream_loop_nil_on_stop turns this H) as [rest E].
    exists rest. split; [exact E |].
    apply (stream_loop_nil_iff _ rest). now rewrite <- E.
  - intros [H | [rest [E H]]]; [discriminate H |].
    rewrite E. apply stream_loop_nil_iff. exact H.
Qed.

Lemma ltb_empty (s : string) : (s <? "")%string = false.
Proof. destruct s; reflexivity. Qed.

(** X15.  A reader that is new, connected at a coordinate that is not
    empty, has that coordinate as its current one and no hint; the first
    event of rows it is given in that log file, whatever the position and
    the size of the event, is neither refused for an overflow nor skipped
    as applied before: it is decoded. *)
Theorem NewGoMySQLReader_first_event (mc : MigrationContext)
    (coordinates : BinlogCoordinates)
    (StartSync : Position -> option BinlogStreamer * option error)
    (fe : FetchedEvent) (rowsEvent : RowsEvent) :
  IsEmpty coordinates = false ->
  currentCoordinates
    (fst (ConnectBinlogStreamer (NewGoMySQLReader mc) coordinates StartSync)) =
    coordinates /\
  IsEmpty (LastAppliedRowsEventHint
             (fst (ConnectBinlogStreamer (NewGoMySQLReader mc) coordinates StartSync)))
    = true /\
  handleRowsEvent
    (at_event (fst (ConnectBinlogStreamer (NewGoMySQLReader mc) coordinates StartSync)) fe)
    (fetched_ev fe) rowsEvent =
    (let this :=
       at_event (fst (ConnectBinlogStreamer (NewGoMySQLReader mc) coordinates StartSync)) fe in
     if EventDML_eqb (dml_of (fetched_ev fe)) NotDML
     then mkHandled this [] (Return (Some (unknown_dml_error (fetched_ev fe))))
     else
       match rows_loop this rowsEvent (dml_of (fetched_ev fe)) 0 (Rows rowsEvent) with
       | (entries, Some p) => mkHandled this entries (Panic p)
       | (entries, None) =>
           mkHandled (set_LastAppliedRowsEventHint this (currentCoordinates this))
             entries (Return None)
       end).
Proof.
  intros Hne.
  assert (Hconn :
    currentCoordinates
      (fst (ConnectBinlogStreamer (NewGoMySQLReader mc) coordinates StartSync)) =
      coordinates /\
    LastAppliedRowsEventHint
      (fst (ConnectBinlogStreamer (NewGoMySQLReader mc) coordinates StartSync)) =
      mkBinlogCoordinates "" 0 0).
  { unfold ConnectBinlogStreamer. rewrite Hne.
    match goal with |- context [handleAuthError ?r ?e ?c] =>
      destruct (handleAuthError_frame r e c) as [_ [_ [Hc Hh]]] end.
    rewrite Hc, Hh. simpl. auto. }
  destruct Hconn as [Hcur Hhint].
  split; [exact Hcur |]. split; [now rewrite Hhint |].
  destruct (at_event_frame
              (fst (ConnectBinlogStreamer (NewGoMySQLReader mc) coordinates StartSync)) fe)
    as [_ [Hh [Hc _]]].
  rewrite Hhint in Hh. rewrite Hcur in Hc.
  cbv zeta. unfold handleRowsEvent at 1. fold (dml_of (fetched_ev fe)).
  rewrite Hh, Hc.
  unfold IsLogPosOverflowBeyond4Bytes, SmallerThanOrEquals, SmallerThan, IsEmpty in *.
  cbn [LogFile LogPos EventSize] in *.
  rewrite ltb_empty, Hne. reflexivity.
Qed.

Lemma coord_le_lt_trans (a b c : BinlogCoordinates) :
  coord_le a b -> coord_lt b c -> coord_lt a c.
Proof.
  unfold coord_le, coord_lt. intros [H1 | [E1 P1]] [H2 | [E2 P2]].
  - left. exact (ltb_trans _ _ _ H1 H2).
  - left. now rewrite <- E2.
  - left. now rewrite E1.
  - right. split; [congruence | lia].
Qed.

(** In a run that has not panicked, every entry sent lies at or before
    the hint the run leaves. *)
Lemma stream_loop_below_hint (turns : list turn) :
  forall this : GoMySQLReader,
  (forall p, stream_ended (stream_loop this turns) <> Some (Panic p)) ->
  Forall (fun e => coord_le (Coordinates e)
                     (LastAppliedRowsEventHint (stream_reader (stream_loop this turns))))
    (stream_sent (stream_loop this turns)).
Proof.
  induction turns as [| t turns IH]; intros this Hnp; [constructor |].
  destruct t as [| fe | err].
  - constructor.
  - rewrite stream_loop_fetch_ok in *.
    destruct (fetched_body fe) as [next | rowsEvent |].
    + cbn [and_then stream_reader stream_sent stream_ended app] in *.
      apply IH. exact Hnp.
    + pose proof (handleRowsEvent_sent_at_current (at_event this fe)
                    (fetched_ev fe) rowsEvent) as Hat.
      destruct (handleRowsEvent_cases (at_event this fe) (fetched_ev fe) rowsEvent)
        as [[Hs [Hr _]] | [Hlt [[He Hr] | [Hr [p Hp]]]]].
      * rewrite Hs, Hr in *.
        destruct (ended _) as [[e |] | p];
          cbn [and_then stream_reader stream_sent stream_ended app] in *;
          try constructor.
        apply IH. exact Hnp.
      * rewrite He, Hr in *.
        cbn [and_then stream_reader stream_sent stream_ended] in *.
        apply Forall_app. split; [| apply IH; exact Hnp].
        destruct (stream_loop_in_order turns
                    (set_LastAppliedRowsEventHint (at_event this fe)
                       (currentCoordinates (at_event this fe))))
          as [_ [_ Hhint]].
        cbn [set_LastAppliedRowsEventHint LastAppliedRowsEventHint] in Hhint.
        eapply Forall_impl; [| exact Hat]. intros e ->.
        destruct Hhint as [-> | Hhint];
          [apply coord_le_refl | now apply coord_lt_le].
      * rewrite Hp in Hnp. exfalso. exact (Hnp p eq_refl).
    + cbn [and_then stream_reader stream_sent stream_ended app] in *.
      apply IH. exact Hnp.
  - cbn [stream_loop].
    destruct (handleAuthError this (Some err) "streaming"). constructor.
Qed.

Lemma ConnectBinlogStreamer_keeps_hint (this : GoMySQLReader)
    (coordinates : BinlogCoordinates)
    (StartSync : Position -> option BinlogStreamer * option error) :
  LastAppliedRowsEventHint (fst (ConnectBinlogStreamer this coordinates StartSync)) =
    LastAppliedRowsEventHint this.
Proof.
  unfold ConnectBinlogStreamer. destruct (IsEmpty coordinates); [reflexivity |].
  match goal with |- context [handleAuthError ?r ?e ?c] =>
    destruct (handleAuthError_frame r e c) as [_ [_ [_ Hh]]] end.
  rewrite Hh. reflexivity.
Qed.

(** X16.  After a run of [StreamEvents] that has not panicked, let the
    caller connect the reader again, at any coordinate, and stream again:
    every entry of the second run lies strictly behind every entry of the
    first in the order of the log.  Events that the client sends again
    are not sent again. *)
Theorem StreamEvents_resumes_behind (this : GoMySQLReader)
    (stopped : bool) (turns : list turn)
    (coordinates : BinlogCoordinates)
    (StartSync : Position -> option BinlogStreamer * option error)
    (stopped' : bool) (turns' : list turn) :
  (forall p, stream_ended (StreamEvents this stopped turns) <> Some (Panic p)) ->
  Forall (fun later =>
            Forall (fun earlier =>
                      coord_lt (Coordinates earlier) (Coordinates later))
              (stream_sent (StreamEvents this stopped turns)))
    (stream_sent
       (StreamEvents
          (fst (ConnectBinlogStreamer
                  (stream_reader (StreamEvents this stopped turns))
                  coordinates StartSync))
          stopped' turns')).
Proof.
  intros Hnp.
  assert (Hbelow :
    Forall (fun e => coord_le (Coordinates e)
                       (LastAppliedRowsEventHint
                          (stream_reader (StreamEvents this stopped turns))))
      (stream_sent (StreamEvents this stopped turns))).
  { unfold StreamEvents in *. destruct stopped; [constructor |].
    now apply stream_loop_below_hint. }
  assert (Habove :
    Forall (fun e => coord_lt
                       (LastAppliedRowsEventHint
                          (stream_reader (StreamEvents this stopped turns)))
                       (Coordinates e))
      (stream_sent
         (StreamEvents
            (fst (ConnectBinlogStreamer
                    (stream_reader (StreamEvents this stopped turns))
                    coordinates StartSync))
            stopped' turns'))).
  { rewrite <- (ConnectBinlogStreamer_keeps_hint
                  (stream_reader (StreamEvents this stopped turns))
                  coordinates StartSync).
    unfold StreamEvents at 1. destruct stopped'; [constructor |].
    apply stream_loop_in_order. }
  eapply Forall_impl; [| exact Habove]. intros later Hlater.
  eapply Forall_impl; [| exact Hbelow]. intros earlier Hearlier.
  exact (coord_le_lt_trans _ _ _ Hearlier Hlater).
Qed.

End Reader.

Arguments mkGoMySQLReader {BinlogStreamer}.
Arguments mkEventHeader {EventType}.
Arguments mkBinlogEvent {EventType}.
Arguments mkRowsEvent {V}.
Arguments mkBinlogEntry {V}.
Arguments mkBinlogDMLEvent {V}.
Arguments mkColumnValues {V}.
Arguments mkHandled {V BinlogStreamer}.
Arguments handleAuthError {BinlogStreamer case_ranges}.
Arguments handleAuthErrors {BinlogStreamer case_ranges}.
Arguments ConnectBinlogStreamer {BinlogStreamer case_ranges}.
Arguments handleRowsEvent {V BinlogStreamer EventType}.
Arguments currentCoordinates {BinlogStreamer}.
Arguments LastAppliedRowsEventHint {BinlogStreamer}.
Arguments authFailureCount {BinlogStreamer}.
Arguments set_LastAppliedRowsEventHint {BinlogStreamer}.
Arguments set_authFailureCount {BinlogStreamer}.
Arguments sent {V BinlogStreamer}.
Arguments ended {V BinlogStreamer}.
Arguments reader_after {V BinlogStreamer}.

(** ** A part of the case table

    The rows of [unicode.CaseRanges] for the Latin letters up to U+017F
    and for the signs Ohm, Kelvin and Angstrom, as the table of Go's
    library has them.  The runs below are runs with these rows. *)

Definition UpperLower_d : unicode.d :=
  unicode.mk_d unicode.UpperLower unicode.UpperLower unicode.UpperLower.

Definition CaseRanges_Latin : list unicode.CaseRange :=
  [ unicode.mkCaseRange 0x0041 0x005A (unicode.mk_d 0 32 0);
    unicode.mkCaseRange 0x0061 0x007A (unicode.mk_d (-32) 0 (-32));
    unicode.mkCaseRange 0x00B5 0x00B5 (unicode.mk_d 743 0 743);
    unicode.mkCaseRange 0x00C0 0x00D6 (unicode.mk_d 0 32 0);
    unicode.mkCaseRange 0x00D8 0x00DE (unicode.mk_d 0 32 0);
    unicode.mkCaseRange 0x00E0 0x00F6 (unicode.mk_d (-32) 0 (-32));
    unicode.mkCaseRange 0x00F8 0x00FE (unicode.mk_d (-32) 0 (-32));
    unicode.mkCaseRange 0x00FF 0x00FF (unicode.mk_d 121 0 121);
    unicode.mkCaseRange 0x0100 0x012F UpperLower_d;
    unicode.mkCaseRange 0x0130 0x0130 (unicode.mk_d 0 (-199) 0);
    unicode.mkCaseRange 0x0131 0x0131 (unicode.mk_d (-232) 0 (-232));
    unicode.mkCaseRange 0x0132 0x0137 UpperLower_d;
    unicode.mkCaseRange 0x0139 0x0148 UpperLower_d;
    unicode.mkCaseRange 0x014A 0x0177 UpperLower_d;
    unicode.mkCaseRange 0x0178 0x0178 (unicode.mk_d 0 (-121) 0);
    unicode.mkCaseRange 0x0179 0x017E UpperLower_d;
    unicode.mkCaseRange 0x017F 0x017F (unicode.mk_d (-300) 0 (-300));
    unicode.mkCaseRange 0x2126 0x2126 (unicode.mk_d 0 (-7517) 0);
    unicode.mkCaseRange 0x212A 0x212A (unicode.mk_d 0 (-8383) 0);
    unicode.mkCaseRange 0x212B 0x212B (unicode.mk_d 0 (-8262) 0) ].

#[global] Instance latin_case_ranges : unicode.CaseRanges :=
  {| unicode.rows := CaseRanges_Latin;
     unicode.ReplacementChar_LowerCase := eq_refl |}.

(** ** Runs of the reader

    The reader is run on rows of integers, with the types of the events
    given by their names. *)

(** Modelled from the spec: [ToEventDML] of go/binlog/binlog_dml_event.go.
    "an operation type (insert/update/delete)": the client names the
    events of rows WriteRows.., UpdateRows.. and DeleteRows..; an event of
    another name is no row change the reader knows. *)
Definition ToEventDML_rows (description : string) : EventDML :=
  if String.prefix "WriteRows" description then InsertDML
  else if String.prefix "UpdateRows" description then UpdateDML
  else if String.prefix "DeleteRows" description then DeleteDML
  else NotDML.

(** Modelled from the spec: the text of a coordinate, go/mysql/binlog.go:
    the log file and the position. *)
Definition DisplayString (c : BinlogCoordinates) : string :=
  LogFile c ++ ":" ++ fmt.d (LogPos c).

Definition run_handleRowsEvent :=
  handleRowsEvent (V := Z) (BinlogStreamer := unit) (EventType := string)
    (fun name => name) ToEventDML_rows DisplayString.

Definition reader_at (max count : Z) (current hint : BinlogCoordinates)
    : GoMySQLReader unit :=
  mkGoMySQLReader (mkMigrationContext max) None current hint count.

Definition event_of (name : string) (c : BinlogCoordinates) : BinlogEvent string :=
  mkBinlogEvent (mkEventHeader name (LogPos c) (EventSize c)).

Definition rows_of_t1 (rows : list (list Z)) : RowsEvent Z :=
  mkRowsEvent (mkTableMapEvent "test" "t1") rows.

(** The event ends behind the 4 bytes of the position: the position of
    the event has wrapped and lies before the hint. *)
Definition wrapped : GoMySQLReader unit :=
  reader_at 0 0
    (mkBinlogCoordinates "mysql-bin.000017" 1996 1002)
    (mkBinlogCoordinates "mysql-bin.000017" 4294966294 1000).

(** The hint plus the size of the event lies behind the 4 bytes, and the
    position of the event lies behind the hint. *)
Definition ahead : GoMySQLReader unit :=
  reader_at 0 0
    (mkBinlogCoordinates "mysql-bin.000017" 4294967200 400)
    (mkBinlogCoordinates "mysql-bin.000017" 4294967000 100).

(** The event lies in the log file after the one of the hint. *)
Definition rotated : GoMySQLReader unit :=
  reader_at 0 0
    (mkBinlogCoordinates "log.000002" 500 100)
    (mkBinlogCoordinates "log.000001" 4 0).

(** The event is the one applied last. *)
Definition replayed : GoMySQLReader unit :=
  reader_at 0 0
    (mkBinlogCoordinates "log.000002" 500 100)
    (mkBinlogCoordinates "log.000002" 500 100).

Definition access_denied : error :=
  ofMyError (mkMyError 1045 "Access denied for user 'gh-ost'@'10.20.5.203'" "28000").

Definition three_failures : list error :=
  [ access_denied;
    errors.Errorf_w "connection failed: " access_denied;
    errorString "Authentication Failed for user" ].

(** The table of TestIsAuthenticationError. *)
Example isAuthenticationError_table :
  map isAuthenticationError
    [ None;
      Some (ofMyError (mkMyError 1045 "Access denied for user 'bytebase'@'10.20.5.203'" ""));
      Some (ofMyError (mkMyError 1130 "Host '10.20.5.203' is not allowed to connect to this MySQL server" ""));
      Some (ofMyError (mkMyError 1044 "Access denied for user 'bytebase'@'%' to database 'mysql'" ""));
      Some (ofMyError (mkMyError 1698 "Access denied for user 'root'@'localhost'" ""));
      Some (ofMyError (mkMyError 3118 "Account has been locked" ""));
      Some (errors.Errorf_w "connection failed: " (ofMyError (mkMyError 1045 "Access denied" "")));
      Some (errorString "Access denied for user attempting to connect");
      Some (errorString "authentication failed for user");
      Some (ofMyError (mkMyError 1146 "Table doesn't exist" ""));
      Some (errorString "connection timeout");
      Some (errorString "dial tcp: connection refused") ]
  = [ false; true; true; true; true; true; true; true; true; false; false; false ].
Proof. reflexivity. Qed.

(** A text in capitals with U+0130, the capital I with a dot above, which
    is lowered to [i]. *)
Definition access_denied_dotted : error :=
  errorString ("ACCESS DEN" ++ utf8.AppendRune 0x130 ++ "ED for user 'gh-ost'").

(** The fallback on the text lowers rune by rune: U+0130 goes to [i],
    while U+0131, the small i without a dot, stays; a byte that is no
    UTF-8 is lowered to the bytes of U+FFFD, and the text around it is
    lowered as it is. *)
Example isAuthenticationError_by_rune :
  map isAuthenticationError
    [ Some access_denied_dotted;
      Some (errorString ("AUTHENT" ++ utf8.AppendRune 0x130 ++ "CAT" ++
                         utf8.AppendRune 0x130 ++ "ON FAILED"));
      Some (errorString ("Access Den" ++ utf8.AppendRune 0x131 ++ "ed"));
      Some (errorString ("ACCESS DEN" ++ utf8.bytes [0xC4] ++ "ED"));
      Some (errorString ("ACCESS " ++ utf8.bytes [0xB0] ++ "DENIED"));
      Some (errorString (utf8.bytes [0xE2; 0x82] ++ "ACCESS DENIED" ++
                         utf8.bytes [0xFF])) ]
  = [ true; true; false; false; false; true ] /\
  strings.ToLower ("ACCESS DEN" ++ utf8.AppendRune 0x130 ++ "ED") = "access denied" /\
  strings.ToLower (utf8.bytes [0xC4] ++ "A" ++ utf8.AppendRune 0xC9) =
    utf8.AppendRune utf8.RuneError ++ "a" ++ utf8.AppendRune 0xE9.
Proof. repeat split; vm_compute; reflexivity. Qed.

(** With a maximum of 3, the second failure in a row comes back as it is
    and the third trips the breaker. *)
Lemma handleAuthError_trips_at_max_witness :
  nth_error
    (snd (handleAuthErrors (reader_at 3 0 (currentCoordinates rotated)
                              (LastAppliedRowsEventHint rotated))
            three_failures "streaming")) 1
    = Some (Some (errors.Errorf_w "connection failed: " access_denied)) /\
  nth_error
    (snd (handleAuthErrors (reader_at 3 0 (currentCoordinates rotated)
                              (LastAppliedRowsEventHint rotated))
            three_failures "streaming")) 2
    = Some (Some (tripped 3 3 "streaming"
                    (errorString "Authentication Failed for user"))).
Proof.
  assert (Hall : Forall (fun e => isAuthenticationError (Some e) = true)
                   three_failures).
  { repeat constructor. }
  assert (Hr : GoInt.in_range 3).
  { unfold GoInt.in_range, GoInt.min_int, GoInt.max_int. lia. }
  split.
  - refine (proj1 (proj2 (handleAuthError_trips_at_max unit
              (reader_at 3 0 (currentCoordinates rotated)
                 (LastAppliedRowsEventHint rotated))
              three_failures "streaming" 1 _ eq_refl Hr Hall eq_refl)) _ _);
      simpl; lia.
  - refine (proj1 (proj2 (proj2 (handleAuthError_trips_at_max unit
              (reader_at 3 0 (currentCoordinates rotated)
                 (LastAppliedRowsEventHint rotated))
              three_failures "streaming" 2 _ eq_refl Hr Hall eq_refl))) _ _);
      simpl; unfold GoInt.max_int; lia.
Defined.

(** A wrapped access-denied error of the protocol is classified, and a
    timeout passes through a reader that has counted 2 failures. *)
Lemma isAuthenticationError_classifies_witness :
  isAuthenticationError
    (Some (errors.Errorf_w "connection failed: " access_denied)) = true /\
  isAuthenticationError (Some access_denied_dotted) = true /\
  handleAuthError (reader_at 5 2 (currentCoordinates rotated)
                     (LastAppliedRowsEventHint rotated))
    (Some (errorString "connection timeout")) "streaming"
  = (reader_at 5 2 (currentCoordinates rotated) (LastAppliedRowsEventHint rotated),
     Some (errorString "connection timeout")).
Proof.
  split; [| split].
  - apply (proj1 (isAuthenticationError_classifies unit _)).
    left. exists (mkMyError 1045 "Access denied for user 'gh-ost'@'10.20.5.203'" "28000").
    split.
    + apply wraps_below, wraps_here.
    + right. left. reflexivity.
  - apply (proj1 (isAuthenticationError_classifies unit access_denied_dotted)).
    right. left.
    exists "", ("ACCESS DEN" ++ utf8.AppendRune 0x130 ++ "ED"), " for user 'gh-ost'".
    split; vm_compute; reflexivity.
  - apply (proj2 (isAuthenticationError_classifies unit
                    (errorString "connection timeout"))).
    intros H. apply isAuthenticationError_spec in H. discriminate H.
Defined.

(** A success after 7 failures with a maximum of 5. *)
Lemma handleAuthError_nil_resets_witness :
  handleAuthError (reader_at 5 7 (currentCoordinates rotated)
                     (LastAppliedRowsEventHint rotated)) None "event retrieval"
  = (reader_at 5 0 (currentCoordinates rotated) (LastAppliedRowsEventHint rotated),
     None).
Proof.
  apply (handleAuthError_nil_resets unit
           (reader_at 5 7 (currentCoordinates rotated)
              (LastAppliedRowsEventHint rotated)) "event retrieval").
  simpl. lia.
Defined.

(** The client refuses the connection at log.000002:500: the reader that
    was at log.000001:4 is at log.000002:500. *)
Lemma ConnectBinlogStreamer_keeps_coordinates_witness :
  currentCoordinates
    (fst (ConnectBinlogStreamer
            (reader_at 5 0 (mkBinlogCoordinates "log.000001" 4 0)
               (mkBinlogCoordinates "" 0 0))
            (mkBinlogCoordinates "log.000002" 500 0)
            (fun _ => (None, Some access_denied))))
  = mkBinlogCoordinates "log.000002" 500 0.
Proof.
  apply (ConnectBinlogStreamer_keeps_coordinates unit
           (reader_at 5 0 (mkBinlogCoordinates "log.000001" 4 0)
              (mkBinlogCoordinates "" 0 0))
           (mkBinlogCoordinates "log.000002" 500 0)
           (fun _ => (None, Some access_denied)) access_denied);
    reflexivity.
Defined.

(** The position has wrapped: the call fails, and it sends nothing. *)
Lemma handleRowsEvent_overflow_fails_witness :
  IsLogPosOverflowBeyond4Bytes (currentCoordinates wrapped)
    (LastAppliedRowsEventHint wrapped) = true /\
  run_handleRowsEvent wrapped
    (event_of "WriteRowsEventV2" (currentCoordinates wrapped)) (rows_of_t1 [[1]])
  = mkHandled wrapped []
      (Return (Some (errorString
         "Unexpected rows event at mysql-bin.000017:1996, the binlog end_log_pos is overflow 4 bytes"))).
Proof.
  split; [reflexivity |].
  apply (handleRowsEvent_overflow_fails Z unit string (fun name => name)
           ToEventDML_rows DisplayString wrapped).
  reflexivity.
Defined.

(** An event of a type the reader does not know, at the coordinate applied
    last, is skipped and not refused. *)
Lemma handleRowsEvent_skip_precedes_classification_witness :
  ToEventDML_rows "PartialUpdateRowsEvent" = NotDML /\
  run_handleRowsEvent replayed
    (event_of "PartialUpdateRowsEvent" (currentCoordinates replayed))
    (rows_of_t1 [[1]; [2]])
  = mkHandled replayed [] (Return None).
Proof.
  split; [reflexivity |].
  apply (handleRowsEvent_skip_precedes_classification Z unit string
           (fun name => name) ToEventDML_rows DisplayString replayed).
  - intros [H | [_ H]]; [discriminate H | simpl in H; lia].
  - reflexivity.
Defined.

(** C3 as it is stated fails where the position has wrapped: the
    coordinate of the event is smaller than the hint, and the call returns
    an error. *)
Lemma handleRowsEvent_skips_applied_counterexample :
  coord_le (currentCoordinates wrapped) (LastAppliedRowsEventHint wrapped) /\
  ended (run_handleRowsEvent wrapped
           (event_of "WriteRowsEventV2" (currentCoordinates wrapped))
           (rows_of_t1 [[1]]))
  = Return (Some (errorString
      "Unexpected rows event at mysql-bin.000017:1996, the binlog end_log_pos is overflow 4 bytes")) /\
  ended (run_handleRowsEvent wrapped
           (event_of "WriteRowsEventV2" (currentCoordinates wrapped))
           (rows_of_t1 [[1]]))
  <> Return None.
Proof.
  split; [| split].
  - right. simpl. split; [reflexivity | lia].
  - reflexivity.
  - discriminate.
Qed.

Lemma handleRowsEvent_skips_applied_witness :
  sent (run_handleRowsEvent replayed
          (event_of "WriteRowsEventV2" (currentCoordinates replayed))
          (rows_of_t1 [[1]])) = [] /\
  ended (run_handleRowsEvent replayed
           (event_of "WriteRowsEventV2" (currentCoordinates replayed))
           (rows_of_t1 [[1]])) = Return None.
Proof.
  assert (Hle : coord_le (currentCoordinates replayed)
                  (LastAppliedRowsEventHint replayed)).
  { right. simpl. split; [reflexivity | lia]. }
  pose proof (handleRowsEvent_skips_applied Z unit string (fun name => name)
                ToEventDML_rows DisplayString replayed
                (event_of "WriteRowsEventV2" (currentCoordinates replayed))
                (rows_of_t1 [[1]]) Hle) as [Hs [_ [He _]]].
  split; [exact Hs | exact (He eq_refl)].
Defined.

(** C5 as it is stated fails where the overflow check does: the
    coordinate of the update lies behind the hint, and the call sends
    nothing of its pair. *)
Lemma handleRowsEvent_update_pairs_counterexample :
  coord_lt (LastAppliedRowsEventHint ahead) (currentCoordinates ahead) /\
  ToEventDML_rows "UpdateRowsEventV2" = UpdateDML /\
  run_handleRowsEvent ahead
    (event_of "UpdateRowsEventV2" (currentCoordinates ahead))
    (rows_of_t1 (rows_of_pairs Z [([1], [2])]))
  = mkHandled ahead []
      (Return (Some (errorString
         "Unexpected rows event at mysql-bin.000017:4294967200, the binlog end_log_pos is overflow 4 bytes"))).
Proof.
  split; [| split].
  - right. simpl. split; [reflexivity | lia].
  - reflexivity.
  - reflexivity.
Qed.

Lemma handleRowsEvent_update_pairs_witness :
  sent (run_handleRowsEvent rotated
          (event_of "UpdateRowsEventV2" (currentCoordinates rotated))
          (rows_of_t1 [[1]; [2]; [3]; [4]]))
  = [ update_entry Z (currentCoordinates rotated) (mkTableMapEvent "test" "t1")
        ([1], [2]);
      update_entry Z (currentCoordinates rotated) (mkTableMapEvent "test" "t1")
        ([3], [4]) ] /\
  LastAppliedRowsEventHint
    (reader_after (run_handleRowsEvent rotated
       (event_of "UpdateRowsEventV2" (currentCoordinates rotated))
       (rows_of_t1 [[1]; [2]; [3]; [4]])))
  = currentCoordinates rotated.
Proof.
  assert (Hlt : coord_lt (LastAppliedRowsEventHint rotated)
                  (currentCoordinates rotated)).
  { left. reflexivity. }
  pose proof (handleRowsEvent_update_pairs Z unit string (fun name => name)
                ToEventDML_rows DisplayString rotated
                (event_of "UpdateRowsEventV2" (currentCoordinates rotated))
                (rows_of_t1 [[1]; [2]; [3]; [4]])
                eq_refl Hlt eq_refl eq_refl) as [_ [H _]].
  unfold run_handleRowsEvent. rewrite H. split; reflexivity.
Defined.

(** C2 as it is stated fails at an update of three rows: the call sends
    the entry of the first two rows and panics; it returns no error. *)
Lemma handleRowsEvent_update_odd_counterexample :
  coord_lt (LastAppliedRowsEventHint rotated) (currentCoordinates rotated) /\
  ToEventDML_rows "UpdateRowsEventV2" = UpdateDML /\
  run_handleRowsEvent rotated
    (event_of "UpdateRowsEventV2" (currentCoordinates rotated))
    (rows_of_t1 [[1]; [2]; [3]])
  = mkHandled rotated
      [ update_entry Z (currentCoordinates rotated) (mkTableMapEvent "test" "t1")
          ([1], [2]) ]
      (Panic (index_out_of_range 3 3)).
Proof.
  split; [| split].
  - left. reflexivity.
  - reflexivity.
  - reflexivity.
Qed.

Lemma handleRowsEvent_update_odd_panics_witness :
  run_handleRowsEvent rotated
    (event_of "UpdateRowsEventV2" (currentCoordinates rotated))
    (rows_of_t1 [[7]])
  = mkHandled rotated [] (Panic (index_out_of_range 1 1)).
Proof.
  assert (Hlt : coord_lt (LastAppliedRowsEventHint rotated)
                  (currentCoordinates rotated)).
  { left. reflexivity. }
  exact (proj1 (handleRowsEvent_update_odd_panics Z unit string (fun name => name)
                  ToEventDML_rows DisplayString rotated
                  (event_of "UpdateRowsEventV2" (currentCoordinates rotated))
                  (rows_of_t1 [[7]])
                  eq_refl Hlt eq_refl eq_refl)).
Defined.

(** C7 as it is stated fails where the overflow check does: the event of
    an unknown type lies behind the hint, and the error returned is the one
    of the overflow, which does not name the type. *)
Lemma handleRowsEvent_unknown_dml_counterexample :
  coord_lt (LastAppliedRowsEventHint ahead) (currentCoordinates ahead) /\
  ToEventDML_rows "PartialUpdateRowsEvent" = NotDML /\
  ended (run_handleRowsEvent ahead
           (event_of "PartialUpdateRowsEvent" (currentCoordinates ahead))
           (rows_of_t1 [[1]; [2]]))
  = Return (Some (errorString
      "Unexpected rows event at mysql-bin.000017:4294967200, the binlog end_log_pos is overflow 4 bytes")).
Proof.
  split; [| split].
  - right. simpl. split; [reflexivity | lia].
  - reflexivity.
  - reflexivity.
Qed.

Lemma handleRowsEvent_unknown_dml_witness :
  run_handleRowsEvent rotated
    (event_of "PartialUpdateRowsEvent" (currentCoordinates rotated))
    (rows_of_t1 [[1]; [2]])
  = mkHandled rotated []
      (Return (Some (errorString "Unknown DML type: PartialUpdateRowsEvent"))).
Proof.
  assert (Hlt : coord_lt (LastAppliedRowsEventHint rotated)
                  (currentCoordinates rotated)).
  { left. reflexivity. }
  exact (proj1 (handleRowsEvent_unknown_dml Z unit string (fun name => name)
                  ToEventDML_rows DisplayString rotated
                  (event_of "PartialUpdateRowsEvent" (currentCoordinates rotated))
                  (rows_of_t1 [[1]; [2]]))
               eq_refl Hlt eq_refl).
Defined.

(** An insert of two rows and a delete of one, in the next log file. *)
Lemma handleRowsEvent_insert_delete_witness :
  sent (run_handleRowsEvent rotated
          (event_of "WriteRowsEventV2" (currentCoordinates rotated))
          (rows_of_t1 [[1]; [2]]))
  = [ insert_entry Z (currentCoordinates rotated) (mkTableMapEvent "test" "t1") [1];
      insert_entry Z (currentCoordinates rotated) (mkTableMapEvent "test" "t1") [2] ] /\
  sent (run_handleRowsEvent rotated
          (event_of "DeleteRowsEventV1" (currentCoordinates rotated))
          (rows_of_t1 [[3]]))
  = [ delete_entry Z (currentCoordinates rotated) (mkTableMapEvent "test" "t1") [3] ].
Proof.
  assert (Hlt : coord_lt (LastAppliedRowsEventHint rotated)
                  (currentCoordinates rotated)).
  { left. reflexivity. }
  unfold run_handleRowsEvent. split.
  - rewrite (proj1 (handleRowsEvent_insert_delete Z unit string (fun name => name)
                      ToEventDML_rows DisplayString rotated
                      (event_of "WriteRowsEventV2" (currentCoordinates rotated))
                      (rows_of_t1 [[1]; [2]]) eq_refl Hlt) eq_refl).
    reflexivity.
  - rewrite (proj2 (handleRowsEvent_insert_delete Z unit string (fun name => name)
                      ToEventDML_rows DisplayString rotated
                      (event_of "DeleteRowsEventV1" (currentCoordinates rotated))
                      (rows_of_t1 [[3]]) eq_refl Hlt) eq_refl).
    reflexivity.
Defined.

Lemma ConnectBinlogStreamer_success_witness :
  ConnectBinlogStreamer
    (reader_at 5 2 (mkBinlogCoordinates "log.000001" 4 0)
       (mkBinlogCoordinates "" 0 0))
    (mkBinlogCoordinates "log.000002" 500 0)
    (fun _ => (Some tt, None))
  = (mkGoMySQLReader (mkMigrationContext 5) (Some tt)
       (mkBinlogCoordinates "log.000002" 500 0) (mkBinlogCoordinates "" 0 0) 0,
     None).
Proof.
  apply (ConnectBinlogStreamer_success unit
           (reader_at 5 2 (mkBinlogCoordinates "log.000001" 4 0)
              (mkBinlogCoordinates "" 0 0))
           (mkBinlogCoordinates "log.000002" 500 0)
           (fun _ => (Some tt, None)) tt);
    [reflexivity | simpl; lia | reflexivity].
Defined.

Arguments mkFetchedEvent {V EventType}.
Arguments RotateEvent {V}.
Arguments RowsEventBody {V}.
Arguments OtherEvent {V}.
Arguments stop {V EventType}.
Arguments fetch_ok {V EventType}.
Arguments fetch_err {V EventType}.
Arguments NewGoMySQLReader {BinlogStreamer}.
Arguments GetCurrentBinlogCoordinates {BinlogStreamer}.
Arguments StreamEvents {V BinlogStreamer EventType} EventType_String ToEventDML
  fmt_v {case_ranges}.
Arguments stream_loop {V BinlogStreamer EventType} EventType_String ToEventDML
  fmt_v {case_ranges}.
Arguments stream_reader {V BinlogStreamer EventType}.
Arguments stream_sent {V BinlogStreamer EventType}.
Arguments stream_fetched {V BinlogStreamer EventType}.
Arguments stream_ended {V BinlogStreamer EventType}.

(** ** Runs of the stream *)

Definition run_StreamEvents :=
  StreamEvents (V := Z) (BinlogStreamer := unit) (EventType := string)
    (fun name => name) ToEventDML_rows DisplayString.

Definition run_stream_loop :=
  stream_loop (V := Z) (BinlogStreamer := unit) (EventType := string)
    (fun name => name) ToEventDML_rows DisplayString.

(** A rotation to [next], as the client sends it. *)
Definition rotation_to (next : string) : FetchedEvent Z string :=
  mkFetchedEvent (mkBinlogEvent (mkEventHeader "RotateEvent" 0 0))
    (RotateEvent next).

(** An event of rows of table t1 that ends at position [pos]. *)
Definition rows_at (name : string) (pos size : Z) (rows : list (list Z))
    : FetchedEvent Z string :=
  mkFetchedEvent (mkBinlogEvent (mkEventHeader name pos size))
    (RowsEventBody (rows_of_t1 rows)).

(** A run of failures of which two are classified. *)
Definition mixed_failures : list error :=
  [ access_denied;
    errorString "connection timeout";
    errorString "Authentication Failed for user";
    errorString "syntax error" ].

(** A new reader is connected at log.000001:4; the client rotates to
    log.000002 and sends an insert of one row that ends at 500; then the
    caller stops the stream. *)
Example StreamEvents_rotation_then_insert :
  let this :=
    fst (ConnectBinlogStreamer (NewGoMySQLReader (mkMigrationContext 5))
           (mkBinlogCoordinates "log.000001" 4 0)
           (fun _ => (Some tt, None))) in
  stream_sent
    (run_StreamEvents this false
       [ fetch_ok (rotation_to "log.000002");
         fetch_ok (rows_at "WriteRowsEventV2" 500 100 [[1; 2]]);
         stop ])
  = [ insert_entry Z (mkBinlogCoordinates "log.000002" 500 100)
        (mkTableMapEvent "test" "t1") [1; 2] ] /\
  stream_ended
    (run_StreamEvents this false
       [ fetch_ok (rotation_to "log.000002");
         fetch_ok (rows_at "WriteRowsEventV2" 500 100 [[1; 2]]);
         stop ])
  = Some (Return None).
Proof. split; reflexivity. Qed.

Lemma handleAuthError_counts_classified_witness :
  authFailureCount
    (fst (handleAuthErrors (reader_at 10 2 (currentCoordinates rotated)
                              (LastAppliedRowsEventHint rotated))
            mixed_failures "test")) = 4.
Proof.
  refine (proj1 (handleAuthError_counts_classified unit mixed_failures
                   (reader_at 10 2 (currentCoordinates rotated)
                      (LastAppliedRowsEventHint rotated)) "test" _ _)).
  - simpl. lia.
  - vm_compute. discriminate.
Defined.

Lemma handleAuthError_verdicts_witness :
  nth_error
    (snd (handleAuthErrors (reader_at 4 2 (currentCoordinates rotated)
                              (LastAppliedRowsEventHint rotated))
            mixed_failures "test")) 1
  = Some (Some (errorString "connection timeout")) /\
  nth_error
    (snd (handleAuthErrors (reader_at 4 2 (currentCoordinates rotated)
                              (LastAppliedRowsEventHint rotated))
            mixed_failures "test")) 2
  = Some (Some (tripped 4 4 "test" (errorString "Authentication Failed for user"))).
Proof.
  assert (H0 : 0 <= authFailureCount
                      (reader_at 4 2 (currentCoordinates rotated)
                         (LastAppliedRowsEventHint rotated))).
  { simpl. lia. }
  assert (Hmax : authFailureCount
                   (reader_at 4 2 (currentCoordinates rotated)
                      (LastAppliedRowsEventHint rotated)) +
                 classified mixed_failures <= GoInt.max_int).
  { vm_compute. discriminate. }
  split.
  - exact (handleAuthError_verdicts unit mixed_failures _ "test" 1
             (errorString "connection timeout") H0 Hmax eq_refl).
  - exact (handleAuthError_verdicts unit mixed_failures _ "test" 2
             (errorString "Authentication Failed for user") H0 Hmax eq_refl).
Defined.

(** Seven failures were counted with a maximum of 3; after a success the
    second failure comes back as it is and the third trips. *)
Lemma handleAuthError_recovers_witness :
  nth_error
    (snd (handleAuthErrors
            (fst (handleAuthError (reader_at 3 7 (currentCoordinates rotated)
                                     (LastAppliedRowsEventHint rotated))
                    None "event retrieval"))
            three_failures "streaming")) 1
  = Some (Some (errors.Errorf_w "connection failed: " access_denied)) /\
  nth_error
    (snd (handleAuthErrors
            (fst (handleAuthError (reader_at 3 7 (currentCoordinates rotated)
                                     (LastAppliedRowsEventHint rotated))
                    None "event retrieval"))
            three_failures "streaming")) 2
  = Some (Some (tripped 3 3 "streaming"
                  (errorString "Authentication Failed for user"))).
Proof.
  assert (H0 : 0 <= authFailureCount
                      (reader_at 3 7 (currentCoordinates rotated)
                         (LastAppliedRowsEventHint rotated))).
  { simpl. lia. }
  assert (Hall : Forall (fun e => isAuthenticationError (Some e) = true)
                   three_failures).
  { repeat constructor. }
  split.
  - refine (handleAuthError_recovers unit _ three_failures "streaming" 1 _
              H0 Hall eq_refl _).
    vm_compute. discriminate.
  - refine (handleAuthError_recovers unit _ three_failures "streaming" 2 _
              H0 Hall eq_refl _).
    vm_compute. discriminate.
Defined.

Lemma isAuthenticationError_survives_wrapping_witness :
  isAuthenticationError
    (Some (errors.Errorf_w "could not read the binary log: "
             (errorString "ERROR 1045 (28000): Access denied for user"))) = true.
Proof.
  apply (proj1 (isAuthenticationError_survives_wrapping
                  (errorString "ERROR 1045 (28000): Access denied for user")
                  "could not read the binary log: ")).
  reflexivity.
Defined.

(** An insert was sent at log.000002:500; an update given at the same
    coordinate sends nothing. *)
Lemma handleRowsEvent_no_replay_witness :
  sent (run_handleRowsEvent
          (reader_after
             (run_handleRowsEvent rotated
                (event_of "WriteRowsEventV2" (currentCoordinates rotated))
                (rows_of_t1 [[1]])))
          (event_of "UpdateRowsEventV2" (currentCoordinates rotated))
          (rows_of_t1 [[1]; [2]])) = [].
Proof.
  apply (handleRowsEvent_no_replay Z unit string (fun name => name)
           ToEventDML_rows DisplayString rotated
           (event_of "WriteRowsEventV2" (currentCoordinates rotated))
           (rows_of_t1 [[1]])).
  reflexivity.
Defined.

(** Two failures were counted with a maximum of 3; the stream fetches a
    rotation and then fails: the error comes back as it is. *)
Lemma StreamEvents_fetch_error_witness :
  stream_ended
    (run_StreamEvents
       (reader_at 3 2 (currentCoordinates rotated) (LastAppliedRowsEventHint rotated))
       false
       ([fetch_ok (rotation_to "log.000003")] ++ fetch_err access_denied :: []))
  = Some (Return (Some access_denied)).
Proof.
  refine (proj1 (StreamEvents_fetch_error Z unit string (fun name => name)
                   ToEventDML_rows DisplayString
                   (reader_at 3 2 (currentCoordinates rotated)
                      (LastAppliedRowsEventHint rotated))
                   [fetch_ok (rotation_to "log.000003")] [] access_denied _ _ _)).
  - simpl. lia.
  - reflexivity.
  - discriminate.
Defined.

Lemma StreamEvents_nil_only_on_stop_witness :
  stream_ended
    (run_StreamEvents rotated false
       [ fetch_ok (rows_at "WriteRowsEventV2" 600 100 [[1]]); stop;
         fetch_ok (rotation_to "log.000003") ]) = Some (Return None) /\
  ~ handled_without_error Z unit string (fun name => name)
      ToEventDML_rows DisplayString rotated
      [ rows_at "PartialUpdateRowsEvent" 600 100 [[1]] ].
Proof.
  split.
  - apply (proj2 (StreamEvents_nil_only_on_stop Z unit string (fun name => name)
                    ToEventDML_rows DisplayString rotated false
                    [ fetch_ok (rows_at "WriteRowsEventV2" 600 100 [[1]]); stop;
                      fetch_ok (rotation_to "log.000003") ])).
    right. exists [ fetch_ok (rotation_to "log.000003") ].
    split; [reflexivity |].
    intros pre fe post rowsEvent E Hb.
    vm_compute in E.
    destruct pre as [| p [| q pre]]; try discriminate E.
    injection E as <- _. injection Hb as <-. reflexivity.
  - intros H.
    assert (Hnil : stream_ended
                     (run_StreamEvents rotated false
                        [ fetch_ok (rows_at "PartialUpdateRowsEvent" 600 100 [[1]]);
                          stop ]) = Some (Return None)).
    { apply (proj2 (StreamEvents_nil_only_on_stop Z unit string (fun name => name)
                      ToEventDML_rows DisplayString rotated false
                      [ fetch_ok (rows_at "PartialUpdateRowsEvent" 600 100 [[1]]);
                        stop ])).
      right. exists []. split; [reflexivity | exact H]. }
    vm_compute in Hnil. discriminate Hnil.
Defined.

Lemma NewGoMySQLReader_first_event_witness :
  sent (run_handleRowsEvent
          (at_event Z unit string
             (fst (ConnectBinlogStreamer (NewGoMySQLReader (mkMigrationContext 5))
                     (mkBinlogCoordinates "log.000001" 4 0)
                     (fun _ => (Some tt, None))))
             (rows_at "WriteRowsEventV2" 500 100 [[1]]))
          (event_of "WriteRowsEventV2" (mkBinlogCoordinates "log.000001" 500 100))
          (rows_of_t1 [[1]]))
  = [ insert_entry Z (mkBinlogCoordinates "log.000001" 500 100)
        (mkTableMapEvent "test" "t1") [1] ].
Proof.
  pose proof (NewGoMySQLReader_first_event Z unit string (fun name => name)
                ToEventDML_rows DisplayString (mkMigrationContext 5)
                (mkBinlogCoordinates "log.000001" 4 0)
                (fun _ => (Some tt, None))
                (rows_at "WriteRowsEventV2" 500 100 [[1]])
                (rows_of_t1 [[1]]) eq_refl) as [_ [_ H]].
  unfold run_handleRowsEvent.
  change (event_of "WriteRowsEventV2" (mkBinlogCoordinates "log.000001" 500 100))
    with (fetched_ev Z string (rows_at "WriteRowsEventV2" 500 100 [[1]])).
  rewrite H. reflexivity.
Defined.

(** The stream sends an insert that ends at log.000002:600 and fails; the
    caller connects again at log.000002:4, and the client sends the insert
    again and a delete that ends at 700. *)
Definition first_run : list (turn Z string) :=
  [ fetch_ok (rows_at "WriteRowsEventV2" 600 100 [[1]]);
    fetch_err (errorString "connection timeout") ].

Definition second_run : list (turn Z string) :=
  [ fetch_ok (rows_at "WriteRowsEventV2" 600 100 [[1]]);
    fetch_ok (rows_at "DeleteRowsEventV2" 700 100 [[1]]) ].

Example StreamEvents_second_run :
  stream_sent
    (run_StreamEvents
       (fst (ConnectBinlogStreamer
               (stream_reader (run_StreamEvents rotated false first_run))
               (mkBinlogCoordinates "log.000002" 4 0)
               (fun _ => (Some tt, None))))
       false second_run)
  = [ delete_entry Z (mkBinlogCoordinates "log.000002" 700 100)
        (mkTableMapEvent "test" "t1") [1] ].
Proof. reflexivity. Qed.

Lemma StreamEvents_resumes_behind_witness :
  Forall (fun later =>
            Forall (fun earlier =>
                      coord_lt (Coordinates Z earlier) (Coordinates Z later))
              (stream_sent (run_StreamEvents rotated false first_run)))
    (stream_sent
       (run_StreamEvents
          (fst (ConnectBinlogStreamer
                  (stream_reader (run_StreamEvents rotated false first_run))
                  (mkBinlogCoordinates "log.000002" 4 0)
                  (fun _ => (Some tt, None))))
          false second_run)).
Proof.
  apply (StreamEvents_resumes_behind Z unit string (fun name => name)
           ToEventDML_rows DisplayString rotated false first_run
           (mkBinlogCoordinates "log.000002" 4 0) (fun _ => (Some tt, None))
           false second_run).
  intros p. discriminate.
Defined.
